(** * The chat widget's message list (class [Chat], custom element chat-ai)

    A shallow embedding of the four handlers that write [this.messages]:
    [_addMessage], [_partialCmd], [_aiMessage] and [_imageMsg].

    The handlers are JavaScript methods.  They allocate message objects,
    keep references to them in the array [this.messages], assign to a
    property of the last of these objects in place, call [fetch], and may
    throw.  The embedding therefore uses an object store, references,
    a log of outbound requests and a state-and-exception monad.

    The module [PluginToggle] embeds the methods of the plugin panel in
    the same way. *)

From stdpp Require Import gmap strings list.


Set Warnings "-register-all".

(** ** JavaScript values *)

(** The values a handler can meet in [event.detail] or in the result of
    [JSON.parse]: the JSON-shaped fragment of JavaScript, plus [undefined].
    A number is kept as the text [Number.prototype.toString] gives for it:
    the handlers only ever convert a number to a string, or compare it with
    the strings 'ai' and 'user', and neither looks at more than that.
    An object is its list of own properties, each key once. *)
Inductive value : Type :=
| VUndefined
| VNull
| VBool (b : bool)
| VNumber (shown : string)
| VString (s : string)
| VArray (elems : list value)
| VObject (props : list (string * value)).

Inductive exn : Type := TypeError | SyntaxError.

(** The text a value converts to ([ToString], as applied by [+] with a
    string operand, by a template literal, by [==] with a string and to a
    property key), for a value whose conversion does not throw: see
    [convertible] below, and [convert], which is what the handlers run.
    An array is joined with commas, [null] and [undefined] elements giving
    the empty text; a plain object is [[object Object]]. *)
Fixpoint ToString (v : value) : string :=
  match v with
  | VUndefined => "undefined"
  | VNull => "null"
  | VBool true => "true"
  | VBool false => "false"
  | VNumber shown => shown
  | VString s => s
  | VArray elems =>
      String.concat ","
        (List.map (fun e => match e with
                            | VUndefined | VNull => ""
                            | _ => ToString e
                            end) elems)
  | VObject _ => "[object Object]"
  end.

(** [v === s] for a string literal [s]. *)
Definition strict_eq_str (v : value) (s : string) : bool :=
  match v with
  | VString t => String.eqb t s
  | _ => false
  end.

(** The result of [v == s] for a string literal [s] that is not the text
    of a number (as 'ai'), when the comparison does not throw: a number or
    a boolean is compared with [ToNumber s], which is NaN; an array or
    object is first converted to its text, which is where the comparison
    can throw (see [convertible] and [loose_eq]). *)
Definition loose_eq_str (v : value) (s : string) : bool :=
  match v with
  | VString t => String.eqb t s
  | VArray _ | VObject _ => String.eqb (ToString v) s
  | VUndefined | VNull | VBool _ | VNumber _ => false
  end.

(** The own property [k] of a property list. *)
Fixpoint own_property (props : list (string * value)) (k : string) : value :=
  match props with
  | [] => VUndefined
  | (k', v) :: rest => if String.eqb k' k then v else own_property rest k
  end.

(** [props] has an own property [k]. *)
Definition has_own_property (props : list (string * value)) (k : string) : bool :=
  existsb (fun p => String.eqb p.1 k) props.

(** Whether converting [v] to a primitive returns.  A plain object is
    converted by the [toString] it inherits; an own property [toString]
    hides that one and, holding data, cannot be called, and the [valueOf]
    tried next or before gives back the object: the conversion throws a
    [TypeError].  An array is converted by [join], which converts every
    element other than [null] and [undefined]. *)
Fixpoint convertible (v : value) : bool :=
  match v with
  | VObject props => negb (has_own_property props "toString")
  | VArray elems => forallb convertible elems
  | VUndefined | VNull | VBool _ | VNumber _ | VString _ => true
  end.

(** ** The state the handlers act on *)

(** A message object [{ content, sender }]. *)
Record Message : Type := { content : value; sender : value }.

(** References to message objects. *)
Abbreviation loc := positive.

(** A call [fetch(url, { method, headers, body: JSON.stringify(v) })];
    [body] keeps [v], the value handed to [JSON.stringify]. *)
Record Request : Type := {
  url : string;
  method : string;
  headers : list (string * string);
  body : value
}.

(** The component together with what it reaches: the store of message
    objects, the properties [sessionid] and [messages], and the requests
    issued so far, oldest first.  [messages] holds references: the spread
    [[...this.messages, m]] builds a new array over the same objects.
    [sessionid] is declared with [type: String]: it holds a string, or
    [undefined] while the attribute is absent, and converting either to a
    string does not throw. *)
Record State : Type := {
  heap : gmap loc Message;
  sessionid : value;
  messages : list loc;
  fetched : list Request
}.

(** The constructor: [this.messages = []]; [sessionid] is an attribute. *)
Definition constructor (sid : value) : State :=
  {| heap := ∅; sessionid := sid; messages := []; fetched := [] |}.

(** ** State and exceptions *)

Inductive outcome (A : Type) : Type :=
| Return (a : A)
| Throw (e : exn).
Arguments Return {A} a.
Arguments Throw {A} e.

(** A computation runs from a state to an outcome and the state at the
    point of return or throw: what was written before a throw stays. *)
Definition M (A : Type) : Type := State -> outcome A * State.

Definition ret {A} (a : A) : M A := fun st => (Return a, st).

Definition throw {A} (e : exn) : M A := fun st => (Throw e, st).

Definition bind {A B} (m : M A) (k : A -> M B) : M B :=
  fun st =>
    match m st with
    | (Return a, st') => k a st'
    | (Throw e, st') => (Throw e, st')
    end.

#[global] Instance M_ret : MRet M := @ret.
#[global] Instance M_bind : MBind M := fun A B k m => bind m k.

Definition when (b : bool) (m : M unit) : M unit :=
  if b then m else ret tt.

(** [v.k], for a name [k] that no built-in prototype defines (the five
    names used here: content, sender, url, command, so_far). *)
Definition Get (v : value) (k : string) : M value :=
  match v with
  | VUndefined | VNull => throw TypeError
  | VObject props => ret (own_property props k)
  | VBool _ | VNumber _ | VString _ | VArray _ => ret VUndefined
  end.

(** The conversion of [v] to a string, as [+] with a string operand and a
    template literal run it: the text of [v], or a [TypeError]. *)
Definition convert (v : value) : M string :=
  if convertible v then ret (ToString v) else throw TypeError.

(** [v == s] for a string literal [s] that is not the text of a number:
    an object or array [v] is converted first, which can throw. *)
Definition loose_eq (v : value) (s : string) : M bool :=
  if convertible v then ret (loose_eq_str v s) else throw TypeError.

(** [this.messages] *)
Definition get_messages : M (list loc) := fun st => (Return (messages st), st).

(** [this.messages = ms] *)
Definition set_messages (ms : list loc) : M unit :=
  fun st => (Return tt,
             {| heap := heap st; sessionid := sessionid st;
                messages := ms; fetched := fetched st |}).

(** [this.sessionid] *)
Definition get_sessionid : M value := fun st => (Return (sessionid st), st).

(** The object literal [{ content: c, sender: s }]: a new object. *)
Definition new_object (m : Message) : M loc :=
  fun st =>
    let l := fresh (dom (heap st)) in
    (Return l,
     {| heap := <[l := m]> (heap st); sessionid := sessionid st;
        messages := messages st; fetched := fetched st |}).

(** [a[i]] on an array of references: [undefined] outside [0 .. length-1]. *)
Definition index (ms : list loc) (i : Z) : option loc :=
  if (i <? 0)%Z then None else ms !! Z.to_nat i.

(** [o.sender], where [o] is an element read from the array;
    [None] is [undefined], and reading a property of it throws.
    A reference with no object in the store does not occur in a state
    the component reaches (see [wf]); it is read like [undefined]. *)
Definition get_sender (o : option loc) : M value :=
  fun st =>
    match o with
    | None => (Throw TypeError, st)
    | Some l =>
        match heap st !! l with
        | Some m => (Return (sender m), st)
        | None => (Throw TypeError, st)
        end
    end.

(** [o.content = c]: an assignment to a property of the object itself. *)
Definition set_content (o : option loc) (c : value) : M unit :=
  fun st =>
    match o with
    | None => (Throw TypeError, st)
    | Some l =>
        (Return tt,
         {| heap := alter (fun m => {| content := c; sender := sender m |}) l (heap st);
            sessionid := sessionid st;
            messages := messages st; fetched := fetched st |})
    end.

(** [fetch(...)]: the request is issued, the promise is dropped. *)
Definition fetch (r : Request) : M unit :=
  fun st => (Return tt,
             {| heap := heap st; sessionid := sessionid st;
                messages := messages st; fetched := fetched st ++ [r] |}).

(** ** Events *)

(** The event of the chat form ([@addmessage]); [detail] is its payload. *)
Record CustomEvent : Type := { detail : value }.

(** An event of the [EventSource].  Its [data] is a text that the handlers
    only pass to [JSON.parse]; the event is kept as what [JSON.parse] makes
    of that text: a [SyntaxError], or the parsed value. *)
Inductive payload : Type :=
| NotJSON
| Parsed (v : value).

Record MessageEvent : Type := { data : payload }.

Definition JSON_parse (p : payload) : M value :=
  match p with
  | NotJSON => throw SyntaxError
  | Parsed v => ret v
  end.

(** The double quote, for the markup of [_imageMsg]. *)
Definition dq : string := String (Ascii.ascii_of_nat 34) EmptyString.

(** ** The handlers

    [console.log] only prints.  [requestUpdate] is inherited (through
    [BaseEl], which is not among the sources, from the rendering library):
    it schedules a render, and a render reads [this.messages] without
    writing it.  Neither is part of the embedding. *)

Definition _addMessage (event : CustomEvent) : M unit :=
  content ← Get (detail event) "content";
  sender ← Get (detail event) "sender";
  ms ← get_messages;
  o ← new_object {| content := content; sender := sender |};
  set_messages (ms ++ [o]);;
  when (strict_eq_str sender "user")
    (sid ← get_sessionid;
     fetch {| url := "/chat/" +:+ ToString sid +:+ "/send";
              method := "POST";
              headers := [("Content-Type", "application/json")];
              body := VObject [("message", content)] |}).

Definition _partialCmd (event : MessageEvent) : M unit :=
  data ← JSON_parse (data event);
  ms ← get_messages;
  s ← get_sender (index ms (Z.of_nat (length ms) - 1));
  is_ai ← loose_eq s "ai";
  when (negb is_ai)
    (ms ← get_messages;
     o ← new_object {| content := VString ""; sender := VString "ai" |};
     set_messages (ms ++ [o]));;
  ms ← get_messages;
  command ← Get data "command";
  command_text ← convert command;
  so_far ← Get data "so_far";
  so_far_text ← convert so_far;
  set_content (index ms (Z.of_nat (length ms) - 1))
    (VString (command_text +:+ ": " +:+ so_far_text)).

Definition _aiMessage (event : MessageEvent) : M unit :=
  data ← JSON_parse (data event);
  ms ← get_messages;
  content ← Get data "content";
  o ← new_object {| content := content; sender := VString "ai" |};
  set_messages (ms ++ [o]).

Definition _imageMsg (event : MessageEvent) : M unit :=
  data ← JSON_parse (data event);
  url ← Get data "url";
  url_text ← convert url;
  let html := "<img src=" +:+ dq +:+ url_text +:+ dq +:+
              " alt=" +:+ dq +:+ "image" +:+ dq +:+ ">" in
  ms ← get_messages;
  o ← new_object {| content := VString html; sender := VString "ai" |};
  set_messages (ms ++ [o]).

(** ** Delivery of events *)

(** The four kinds of event the component listens to, with the handler
    each is bound to: [@addmessage] in [render], and the three
    [addEventListener] calls of [firstUpdated]. *)
Inductive event : Type :=
| addmessage (e : CustomEvent)
| new_message (e : MessageEvent)
| image (e : MessageEvent)
| partial_command (e : MessageEvent).

Definition handler (ev : event) : M unit :=
  match ev with
  | addmessage e => _addMessage e
  | new_message e => _aiMessage e
  | image e => _imageMsg e
  | partial_command e => _partialCmd e
  end.

(** One turn of the host's event loop.  An exception that leaves a handler
    is reported by the host; the component stays as the handler left it. *)
Definition dispatch (st : State) (ev : event) : State := (handler ev st).2.

(** Events delivered one after the other, in arrival order. *)
Definition run (evs : list event) (st : State) : State :=
  foldl dispatch st evs.

(** What each delivery of a run ended with. *)
Fixpoint outcomes (evs : list event) (st : State) : list (outcome unit) :=
  match evs with
  | [] => []
  | ev :: rest => (handler ev st).1 :: outcomes rest (dispatch st ev)
  end.

(** ** The operations of the specification, as events *)

(** Modelled from the spec: the event behind [onUserSubmit].  The chat
    form that raises [addmessage] is not among the sources; by the
    specification it submits the authored text with sender 'user'. *)
Definition onUserSubmit (content : string) : event :=
  addmessage {| detail := VObject [("content", VString content);
                                   ("sender", VString "user")] |}.

(** Modelled from the spec: the payloads of the three server events.  The
    server is not among the sources; by the specification [new_message]
    carries [{ content }], [image] carries [{ url }] and [partial_command]
    carries [{ command, so_far }], each as JSON text. *)
Definition onFinalMessage (content : string) : event :=
  new_message {| data := Parsed (VObject [("content", VString content)]) |}.

Definition onImageMessage (url : string) : event :=
  image {| data := Parsed (VObject [("url", VString url)]) |}.

Definition onPartialCommand (command soFar : string) : event :=
  partial_command
    {| data := Parsed (VObject [("command", VString command);
                                ("so_far", VString soFar)]) |}.

(** ** The message sequence, as displayed *)

(** The entries of [this.messages], each read through its reference. *)
Definition snapshot (st : State) : list Message :=
  omap (fun l => heap st !! l) (messages st).

(** The states the component can be in: the array holds references to
    distinct objects, all of them in the store. *)
Definition wf (st : State) : Prop :=
  NoDup (messages st) ∧ ∀ l, l ∈ messages st → is_Some (heap st !! l).

(** [this.messages = [...this.messages, m]] for a new object [m]. *)
Definition push (m : Message) (st : State) : State :=
  {| heap := <[fresh (dom (heap st)) := m]> (heap st);
     sessionid := sessionid st;
     messages := messages st ++ [fresh (dom (heap st))];
     fetched := fetched st |}.

(** [l.content = c] *)
Definition overwrite (l : loc) (c : value) (st : State) : State :=
  {| heap := alter (fun m => {| content := c; sender := sender m |}) l (heap st);
     sessionid := sessionid st;
     messages := messages st;
     fetched := fetched st |}.

(** The request of [_addMessage]. *)
Definition send_request (sid content : value) : Request :=
  {| url := "/chat/" +:+ ToString sid +:+ "/send";
     method := "POST";
     headers := [("Content-Type", "application/json")];
     body := VObject [("message", content)] |}.

Definition sent (r : Request) (st : State) : State :=
  {| heap := heap st; sessionid := sessionid st;
     messages := messages st; fetched := fetched st ++ [r] |}.

(** What [v.k] evaluates to when it does not throw. *)
Definition property (v : value) (k : string) : value :=
  match v with
  | VObject props => own_property props k
  | _ => VUndefined
  end.

(** [v] is neither [undefined] nor [null]: reading a property of it
    does not throw. *)
Definition coercible (v : value) : bool :=
  match v with
  | VUndefined | VNull => false
  | _ => true
  end.

(** The payload of a [partial_command] event from which [_partialCmd]
    builds its text without throwing: not [null], with a [command] and a
    [so_far] that convert to strings (an absent field is [undefined] and
    converts). *)
Definition text_payload (v : value) : bool :=
  coercible v && convertible (property v "command") &&
  convertible (property v "so_far").

(** The text [_partialCmd] writes, and the markup [_imageMsg] builds. *)
Definition command_text (command so_far : value) : string :=
  ToString command +:+ ": " +:+ ToString so_far.

Definition image_markup (url : value) : string :=
  "<img src=" +:+ dq +:+ ToString url +:+ dq +:+
  " alt=" +:+ dq +:+ "image" +:+ dq +:+ ">".

(** What one delivery can do to the sequence: nothing, append an entry,
    or write the content of the last entry. *)
Inductive effect (st st' : State) : Prop :=
| unchanged :
    snapshot st' = snapshot st → effect st st'
| appended (m : Message) :
    snapshot st' = snapshot st ++ [m] → effect st st'
| rewritten (pre : list Message) (m : Message) (c : value) :
    snapshot st = pre ++ [m] →
    snapshot st' = pre ++ [{| content := c; sender := sender m |}] →
    effect st st'.

(** A call [onFinalMessage content] or [onImageMessage url]. *)
Inductive ai_call : Type :=
| Final (content : string)
| Image (url : string).

Definition ai_event (c : ai_call) : event :=
  match c with
  | Final content => onFinalMessage content
  | Image url => onImageMessage url
  end.

(** The entry each of them appends. *)
Definition ai_entry (c : ai_call) : Message :=
  match c with
  | Final content => {| content := VString content; sender := VString "ai" |}
  | Image url => {| content := VString (image_markup (VString url));
                    sender := VString "ai" |}
  end.

(** The entry that holds the text of [onPartialCommand command soFar]. *)
Definition partial_entry (c : string * string) : Message :=
  {| content := VString (c.1 +:+ ": " +:+ c.2); sender := VString "ai" |}.

(** The requests one delivery issues, for a component whose [sessionid]
    is [sid]: the one of [_addMessage] when the sender is 'user'. *)
Definition forwarded (sid : value) (ev : event) : list Request :=
  match ev with
  | addmessage e =>
      if strict_eq_str (property (detail e) "sender") "user"
      then [send_request sid (property (detail e) "content")]
      else []
  | new_message _ | image _ | partial_command _ => []
  end.

(** ** The plugin panel (class [PluginToggle], custom element plugin-toggle)

    The methods of the class other than [_render].  An [async] method is
    embedded as two computations: the part that the call itself runs, up
    to the first [await], and the part that runs once the [fetch] has
    settled.  [fetchPlugins] awaits twice, [fetch] and then
    [response.json()], and touches the component only after both; the two
    are one step here.  Between the two parts any other event may be
    delivered.  Plugin objects live in a store and [this.plugins] holds
    references to them, so that [handleToggle] writes the object it is
    given and [handleSubmit] reads what was written. *)

Module PluginToggle.

(** An element of a parsed array: a plain object, held by reference to
    its place in the store, or a value of any other kind. *)
Inductive element : Type :=
| Obj (l : nat)
| Other (v : value).

(** What [this.plugins] holds: an array, or a value that is no array. *)
Inductive plugin_list : Type :=
| Array (elems : list element)
| NotArray (v : value).

(** A call of [fetch].  [body] is [None] when the call passes no options
    (a GET); otherwise it keeps the object [acc] of a body
    [JSON.stringify({ plugins: acc })], as its own properties. *)
Record Request : Type := {
  url : string;
  method : string;
  headers : list (string * string);
  body : option (gmap string value)
}.

(** How a [fetch] settles: the promise rejects, or it resolves to a
    response with its [ok] flag and what [response.json()] gives
    ([None] when that promise rejects). *)
Inductive response : Type :=
| NetworkError
| Response (ok : bool) (json : option value).

(** The component and what it reaches: the store of plugin objects, each
    a list of own properties; [this.plugins]; the requests issued and the
    alerts shown so far, oldest first. *)
Record State : Type := {
  store : list (list (string * value));
  plugins : plugin_list;
  fetched : list Request;
  alerts : list string
}.

Definition P (A : Type) : Type := State → outcome A * State.

Definition pret {A} (a : A) : P A := fun st => (Return a, st).

Definition pthrow {A} (e : exn) : P A := fun st => (Throw e, st).

Definition pbind {A B} (m : P A) (k : A → P B) : P B :=
  fun st =>
    match m st with
    | (Return a, st') => k a st'
    | (Throw e, st') => (Throw e, st')
    end.

#[local] Instance P_ret : MRet P := @pret.
#[local] Instance P_bind : MBind P := fun A B k m => pbind m k.

(** [fetch(...)]: the request is issued. *)
Definition fetch (r : Request) : P unit :=
  fun st => (Return tt,
             {| store := store st; plugins := plugins st;
                fetched := fetched st ++ [r]; alerts := alerts st |}).

(** [alert(msg)] *)
Definition alert (msg : string) : P unit :=
  fun st => (Return tt,
             {| store := store st; plugins := plugins st;
                fetched := fetched st; alerts := alerts st ++ [msg] |}).

(** [this.plugins] *)
Definition get_plugins : P plugin_list := fun st => (Return (plugins st), st).

(** [o.k = v] on a plain object, for a name [k] that no prototype of it
    defines: the property is written where it stands, or added last. *)
Fixpoint set_property (props : list (string * value)) (k : string) (v : value)
    : list (string * value) :=
  match props with
  | [] => [(k, v)]
  | (k', v') :: rest =>
      if String.eqb k' k then (k', v) :: rest
      else (k', v') :: set_property rest k v
  end.

(** [x.k] for an element [x] of the array, [k] a name that no built-in
    prototype defines ([name], [enabled]).  A reference with no object in
    the store does not occur in a state the component reaches; it is read
    like [undefined]. *)
Definition get (x : element) (k : string) : P value :=
  fun st =>
    match x with
    | Obj l =>
        match store st !! l with
        | Some props => (Return (own_property props k), st)
        | None => (Throw TypeError, st)
        end
    | Other v =>
        if coercible v then (Return (property v k), st)
        else (Throw TypeError, st)
    end.

(** The value of [response.json()] as the program holds it: every plain
    object that is an element of a parsed array is a new object of the
    store. *)
Definition parsed_elements (vs : list value) (st : list (list (string * value)))
    : list element * list (list (string * value)) :=
  foldl (fun '(elems, st) v =>
           match v with
           | VObject props => (elems ++ [Obj (length st)], st ++ [props])
           | _ => (elems ++ [Other v], st)
           end) ([], st) vs.

Definition parsed (v : value) (st : list (list (string * value)))
    : plugin_list * list (list (string * value)) :=
  match v with
  | VArray vs => let '(elems, st') := parsed_elements vs st in (Array elems, st')
  | _ => (NotArray v, st)
  end.

(** The object [acc] that the callback of [reduce] fills.  [own] are its
    own properties.  [shadowed] tells that an assignment to [__proto__]
    no longer reaches the setter of [Object.prototype]: the prototype was
    set to [null], or to an object with an own property of that name. *)
Record accumulator : Type := {
  own : gmap string value;
  shadowed : bool
}.

(** The object literal that [reduce] starts from. *)
Definition empty_object : accumulator := {| own := ∅; shadowed := false |}.

(** [acc[k] = v].  For the key [__proto__], while the setter is reached,
    nothing is added to the own properties: an object or [null] becomes
    the prototype, any other value is ignored. *)
Definition assign (acc : accumulator) (k : string) (v : value) : accumulator :=
  if String.eqb k "__proto__" && negb (shadowed acc) then
    match v with
    | VNull => {| own := own acc; shadowed := true |}
    | VObject props =>
        {| own := own acc;
           shadowed := bool_decide ("__proto__" ∈ props.*1) |}
    | _ => acc
    end
  else {| own := <[k := v]> (own acc); shadowed := shadowed acc |}.

(** The key of [acc[name]]: the text [name] converts to, or a
    [TypeError] when the conversion throws. *)
Definition to_key (name : value) : P string :=
  if convertible name then pret (ToString name) else pthrow TypeError.

(** [elems.reduce((acc, plugin) => { acc[plugin.name] = plugin.enabled;
    return acc }, acc)] *)
Fixpoint reduce (elems : list element) (acc : accumulator) : P accumulator :=
  match elems with
  | [] => mret acc
  | plugin :: rest =>
      name ← get plugin "name";
      key ← to_key name;
      enabled ← get plugin "enabled";
      reduce rest (assign acc key enabled)
  end.

(** ** The methods *)

(** [fetchPlugins], up to its first [await]. *)
Definition fetchPlugins : P unit :=
  fetch {| url := "/get-plugins"; method := "GET"; headers := []; body := None |}.

(** [fetchPlugins], from the point where [fetch] has settled. *)
Definition fetchPlugins_resumed (r : response) : P unit :=
  fun st =>
    match r with
    | Response _ (Some v) =>
        let '(ps, st') := parsed v (store st) in
        (Return tt,
         {| store := st'; plugins := ps;
            fetched := fetched st; alerts := alerts st |})
    | Response _ None => (Throw SyntaxError, st)
    | NetworkError => (Throw TypeError, st)
    end.

(** The constructor: [this.plugins = []], then [this.fetchPlugins()]. *)
Definition constructor : State :=
  (fetchPlugins {| store := []; plugins := Array []; fetched := []; alerts := [] |}).2.

(** [handleToggle(event, plugin)] for a [plugin] that is a plain object;
    [checked] is [event.target.checked]. *)
Definition handleToggle (checked : bool) (plugin : nat) : P unit :=
  fun st =>
    (Return tt,
     {| store := alter (fun props => set_property props "enabled" (VBool checked))
                   plugin (store st);
        plugins := plugins st; fetched := fetched st; alerts := alerts st |}).

(** [handleSubmit], up to its first [await]. *)
Definition handleSubmit : P unit :=
  ps ← get_plugins;
  match ps with
  | NotArray _ => pthrow TypeError
  | Array elems =>
      acc ← reduce elems empty_object;
      fetch {| url := "/update-plugins";
               method := "POST";
               headers := [("Content-Type", "application/json")];
               body := Some (own acc) |}
  end.

(** [handleSubmit], from the point where [fetch] has settled. *)
Definition handleSubmit_resumed (r : response) : P unit :=
  match r with
  | Response true _ => alert "Plugins updated successfully"
  | Response false _ => alert "Failed to update plugins"
  | NetworkError => pthrow TypeError
  end.

Definition handleCancel : P unit := fetchPlugins.

(** What the component reacts to: a change of a checkbox, a click on one
    of the two buttons, and the settling of a request of either kind. *)
Inductive event : Type :=
| change (checked : bool) (plugin : nat)
| click_submit
| click_cancel
| plugins_settled (r : response)
| update_settled (r : response).

Definition handler (ev : event) : P unit :=
  match ev with
  | change checked plugin => handleToggle checked plugin
  | click_submit => handleSubmit
  | click_cancel => handleCancel
  | plugins_settled r => fetchPlugins_resumed r
  | update_settled r => handleSubmit_resumed r
  end.

Definition dispatch (st : State) (ev : event) : State := (handler ev st).2.

Definition run (evs : list event) (st : State) : State := foldl dispatch st evs.

(** The pair of key and value the callback of [reduce] takes from a
    plugin [x], when it does not throw: [x] is neither [null] nor
    [undefined], and its [name] can be converted to a key. *)
Definition entry (st : list (list (string * value))) (x : element)
    : option (string * value) :=
  match x with
  | Obj l =>
      props ← st !! l;
      if convertible (own_property props "name")
      then Some (ToString (own_property props "name"), own_property props "enabled")
      else None
  | Other v =>
      if coercible v && convertible (property v "name")
      then Some (ToString (property v "name"), property v "enabled")
      else None
  end.

(** The value sent for the key [k] by a list of such pairs: the one of
    the last pair with that key. *)
Definition sent_for (k : string) (entries : list (string * value)) : option value :=
  snd <$> last (filter (fun e => e.1 = k) entries).

(** The request of [handleSubmit], for the object [acc] it has built. *)
Definition update_request (acc : gmap string value) : Request :=
  {| url := "/update-plugins";
     method := "POST";
     headers := [("Content-Type", "application/json")];
     body := Some acc |}.

(** The pair the callback of [reduce] takes from an element [v] of the
    parsed reply. *)
Definition value_entry (v : value) : option (string * value) :=
  if coercible v && convertible (property v "name")
  then Some (ToString (property v "name"), property v "enabled")
  else None.

(** The pair of a plugin [x] once [handleToggle checked l] has run, from
    its pair [e] before. *)
Definition toggled (checked : bool) (l : nat) (x : element) (e : string * value)
    : string * value :=
  match x with
  | Obj l' => if decide (l' = l) then (e.1, VBool checked) else e
  | Other _ => e
  end.

(** A reference of an element points into the store. *)
Definition in_store (st : list (list (string * value))) (x : element) : Prop :=
  match x with
  | Obj l => l < length st
  | Other _ => True
  end.

(** An example: the list [[{ name: 'a', enabled: false }]] has been
    loaded, and its plugin switched on. *)
Definition reply_example : list value :=
  [VObject [("name", VString "a"); ("enabled", VBool false)]].

Definition toggled_example : State :=
  dispatch
    (dispatch constructor
       (plugins_settled (Response true (Some (VArray reply_example)))))
    (change true 0).

(** The alert a delivery shows. *)
Definition shown (ev : event) : list string :=
  match ev with
  | update_settled (Response true _) => ["Plugins updated successfully"]
  | update_settled (Response false _) => ["Failed to update plugins"]
  | _ => []
  end.

End PluginToggle.

(** ** Reading the array and the store *)

Lemma index_last_elem (ms : list loc) :
  index ms (Z.of_nat (length ms) - 1) = last ms.
Proof.
  unfold index. destruct ms as [|l ms]; [done|].
  rewrite last_lookup. cbn [length].
  replace (Z.of_nat (S (length ms)) - 1 <? 0)%Z with false
    by (symmetry; apply Z.ltb_ge; lia).
  f_equal. lia.
Qed.

Lemma Get_coercible (v : value) (k : string) (st : State) :
  coercible v = true → Get v k st = (Return (property v k), st).
Proof. by destruct v. Qed.

Lemma Get_not_coercible (v : value) (k : string) (st : State) :
  coercible v = false → Get v k st = (Throw TypeError, st).
Proof. by destruct v. Qed.

Lemma convert_returns (v : value) (st : State) :
  convertible v = true → convert v st = (Return (ToString v), st).
Proof. unfold convert. by intros ->. Qed.

Lemma convert_throws (v : value) (st : State) :
  convertible v = false → convert v st = (Throw TypeError, st).
Proof. unfold convert. by intros ->. Qed.

Lemma loose_eq_returns (v : value) (s : string) (st : State) :
  convertible v = true → loose_eq v s st = (Return (loose_eq_str v s), st).
Proof. unfold loose_eq. by intros ->. Qed.

Lemma loose_eq_throws (v : value) (s : string) (st : State) :
  convertible v = false → loose_eq v s st = (Throw TypeError, st).
Proof. unfold loose_eq. by intros ->. Qed.

Lemma wf_constructor (sid : value) : wf (constructor sid).
Proof.
  split; [constructor|]. intros l Hl. by apply elem_of_nil in Hl.
Qed.

Lemma fresh_not_in_messages (st : State) :
  wf st → fresh (dom (heap st)) ∉ messages st.
Proof.
  intros [_ Hin] Hl. apply Hin, elem_of_dom in Hl.
  by apply (is_fresh (dom (heap st))).
Qed.

Lemma omap_lookup_ext {A B} (f g : A → option B) (l : list A) :
  (∀ x, x ∈ l → f x = g x) → omap f l = omap g l.
Proof.
  induction l as [|a l IH]; intros Hfg; [done|]. cbn.
  rewrite (Hfg a) by left. rewrite IH; [done|].
  intros x Hx. apply Hfg. by right.
Qed.

Lemma wf_push (m : Message) (st : State) : wf st → wf (push m st).
Proof.
  intros Hwf. pose proof (fresh_not_in_messages st Hwf) as Hfresh.
  destruct Hwf as [Hnd Hin]. split; cbn.
  - apply NoDup_app. split_and!; [done| |apply NoDup_singleton].
    intros l Hl ->%list_elem_of_singleton. done.
  - intros l [Hl| ->%list_elem_of_singleton]%elem_of_app.
    + destruct (decide (l = fresh (dom (heap st)))) as [->|Hne]; [done|].
      rewrite lookup_insert_ne by done. by apply Hin.
    + rewrite lookup_insert_eq. by eexists.
Qed.

Lemma snapshot_push (m : Message) (st : State) :
  wf st → snapshot (push m st) = snapshot st ++ [m].
Proof.
  intros Hwf. pose proof (fresh_not_in_messages st Hwf) as Hfresh.
  unfold snapshot; cbn. rewrite omap_app. cbn. rewrite lookup_insert_eq.
  f_equal. apply omap_lookup_ext. intros l Hl.
  apply lookup_insert_ne. by intros <-.
Qed.

Lemma snapshot_length (st : State) :
  wf st → length (snapshot st) = length (messages st).
Proof.
  intros [_ Hin]. unfold snapshot.
  induction (messages st) as [|l ms IH]; [done|]. cbn.
  destruct (Hin l) as [m ->]; [by left|]. cbn. f_equal. apply IH.
  intros l' Hl'. apply Hin. by right.
Qed.

Create HintDb chat.
#[local] Hint Resolve wf_constructor wf_push snapshot_push : chat.

(** Unfolds one delivery down to the handler it runs. *)
Ltac deliver := unfold dispatch; cbn [handler].

(** Unfolds the sequencing of a handler's body. *)
Ltac sequence h := unfold h, mbind, M_bind, bind.

(** ** What each handler does, case by case *)

Lemma _addMessage_returns (e : CustomEvent) (st : State) :
  coercible (detail e) = true →
  _addMessage e st =
    (Return tt,
     let c := property (detail e) "content" in
     let s := property (detail e) "sender" in
     let st' := push {| content := c; sender := s |} st in
     if strict_eq_str s "user"
     then sent (send_request (sessionid st) c) st' else st').
Proof.
  intros Hd. sequence _addMessage.
  rewrite !Get_coercible by done. cbn.
  by destruct (strict_eq_str _ _).
Qed.

Lemma _addMessage_throws (e : CustomEvent) (st : State) :
  coercible (detail e) = false →
  _addMessage e st = (Throw TypeError, st).
Proof.
  intros Hd. sequence _addMessage.
  by rewrite Get_not_coercible.
Qed.

Lemma _aiMessage_returns (v : value) (st : State) :
  coercible v = true →
  _aiMessage {| data := Parsed v |} st =
    (Return tt,
     push {| content := property v "content"; sender := VString "ai" |} st).
Proof.
  intros Hv. sequence _aiMessage. cbn.
  by rewrite Get_coercible.
Qed.

Lemma _aiMessage_throws (p : payload) (st : State) :
  match p with NotJSON => True | Parsed v => coercible v = false end →
  _aiMessage {| data := p |} st =
    (Throw (match p with NotJSON => SyntaxError | Parsed _ => TypeError end), st).
Proof.
  intros Hp. sequence _aiMessage.
  destruct p as [|v]; cbn; [done|]. by rewrite Get_not_coercible.
Qed.

Lemma _imageMsg_returns (v : value) (st : State) :
  coercible v = true →
  convertible (property v "url") = true →
  _imageMsg {| data := Parsed v |} st =
    (Return tt,
     push {| content := VString (image_markup (property v "url"));
             sender := VString "ai" |} st).
Proof.
  intros Hv Hurl. sequence _imageMsg. cbn.
  by rewrite Get_coercible, convert_returns.
Qed.

(** A [url] that cannot be converted: the template literal throws. *)
Lemma _imageMsg_throws_converting (v : value) (st : State) :
  coercible v = true →
  convertible (property v "url") = false →
  _imageMsg {| data := Parsed v |} st = (Throw TypeError, st).
Proof.
  intros Hv Hurl. sequence _imageMsg. cbn.
  by rewrite Get_coercible, convert_throws.
Qed.

Lemma _imageMsg_throws (p : payload) (st : State) :
  match p with NotJSON => True | Parsed v => coercible v = false end →
  _imageMsg {| data := p |} st =
    (Throw (match p with NotJSON => SyntaxError | Parsed _ => TypeError end), st).
Proof.
  intros Hp. sequence _imageMsg.
  destruct p as [|v]; cbn; [done|]. by rewrite Get_not_coercible.
Qed.

Lemma _partialCmd_not_JSON (st : State) :
  _partialCmd {| data := NotJSON |} st = (Throw SyntaxError, st).
Proof. done. Qed.

(** On the empty array [this.messages[-1]] is [undefined], and reading
    its [sender] throws before anything is written. *)
Lemma _partialCmd_empty (v : value) (st : State) :
  messages st = [] →
  _partialCmd {| data := Parsed v |} st = (Throw TypeError, st).
Proof.
  intros Hms. sequence _partialCmd. cbn.
  by rewrite Hms.
Qed.

Lemma overwrite_push (c : value) (m : Message) (st : State) :
  overwrite (fresh (dom (heap st))) c (push m st) =
  push {| content := c; sender := sender m |} st.
Proof. unfold overwrite, push. cbn. by rewrite alter_insert_eq. Qed.

(** The last entry has a sender that cannot be compared with 'ai': the
    test throws before anything is written. *)
Lemma _partialCmd_throws_at_test (v : value) (st : State) (l : loc) (m : Message) :
  last (messages st) = Some l →
  heap st !! l = Some m →
  convertible (sender m) = false →
  _partialCmd {| data := Parsed v |} st = (Throw TypeError, st).
Proof.
  intros Hl Hm Hs. sequence _partialCmd. cbn.
  rewrite index_last_elem, Hl. cbn. rewrite Hm.
  by rewrite loose_eq_throws.
Qed.

Lemma text_payload_true (v : value) :
  text_payload v = true ↔
  coercible v = true ∧ convertible (property v "command") = true ∧
  convertible (property v "so_far") = true.
Proof. unfold text_payload. rewrite !andb_true_iff. tauto. Qed.

(** The last entry is an 'ai' entry: it is written in place. *)
Lemma _partialCmd_continues (v : value) (st : State) (l : loc) (m : Message) :
  text_payload v = true →
  last (messages st) = Some l →
  heap st !! l = Some m →
  convertible (sender m) = true →
  loose_eq_str (sender m) "ai" = true →
  _partialCmd {| data := Parsed v |} st =
    (Return tt,
     overwrite l
       (VString (command_text (property v "command") (property v "so_far"))) st).
Proof.
  intros (Hv & Hc & Hs)%text_payload_true Hl Hm Hconv Hai.
  sequence _partialCmd. cbn.
  rewrite index_last_elem, Hl. cbn. rewrite Hm.
  rewrite loose_eq_returns, Hai by done. cbn.
  rewrite Get_coercible, convert_returns by done. cbn.
  rewrite Get_coercible, convert_returns by done. cbn.
  by rewrite index_last_elem, Hl.
Qed.

(** The last entry is not an 'ai' entry: a new one is appended, then
    written. *)
Lemma _partialCmd_starts (v : value) (st : State) (l : loc) (m : Message) :
  text_payload v = true →
  last (messages st) = Some l →
  heap st !! l = Some m →
  convertible (sender m) = true →
  loose_eq_str (sender m) "ai" = false →
  _partialCmd {| data := Parsed v |} st =
    (Return tt,
     push {| content :=
               VString (command_text (property v "command") (property v "so_far"));
             sender := VString "ai" |} st).
Proof.
  intros (Hv & Hc & Hs)%text_payload_true Hl Hm Hconv Hai.
  sequence _partialCmd. cbn.
  rewrite index_last_elem, Hl. cbn. rewrite Hm.
  rewrite loose_eq_returns, Hai by done. cbn.
  rewrite Get_coercible, convert_returns by done. cbn.
  rewrite Get_coercible, convert_returns by done. cbn.
  rewrite index_last_elem. cbn. rewrite last_snoc.
  by rewrite <- (overwrite_push _ {| content := VString ""; sender := VString "ai" |}).
Qed.

(** A payload that is [null], or whose [command] or [so_far] cannot be
    converted: the throw comes after the test on the last entry, so an
    entry appended by that test stays. *)
Lemma _partialCmd_throws_late (v : value) (st : State) (l : loc) (m : Message) :
  text_payload v = false →
  last (messages st) = Some l →
  heap st !! l = Some m →
  convertible (sender m) = true →
  _partialCmd {| data := Parsed v |} st =
    (Throw TypeError,
     if loose_eq_str (sender m) "ai" then st
     else push {| content := VString ""; sender := VString "ai" |} st).
Proof.
  intros Hv Hl Hm Hconv. sequence _partialCmd. cbn.
  rewrite index_last_elem, Hl. cbn. rewrite Hm.
  rewrite loose_eq_returns by done.
  unfold text_payload in Hv.
  destruct (loose_eq_str (sender m) "ai"); cbn;
    (destruct (coercible v) eqn:Hco;
     [rewrite Get_coercible by done; unfold convert;
      destruct (convertible (property v "command")); cbn;
      [rewrite Get_coercible by done;
       destruct (convertible (property v "so_far")); [done|]|]
     |rewrite Get_not_coercible by done]);
    cbn; try done; by destruct st.
Qed.

(** The three places where a handler converts a value, on the payload
    field or sender [{ toString: 1 }], which does not convert: the
    template literal of [_imageMsg] throws and nothing is appended; the
    [+] of [_partialCmd] throws after the empty entry was appended; the
    [!=] of [_partialCmd] throws before anything is appended. *)
Example conversions_that_throw :
  handler (image {| data := Parsed (VObject [("url", VObject [("toString", VNumber "1")])]) |})
    (constructor (VString "s1")) =
    (Throw TypeError, constructor (VString "s1")) ∧
  (handler
     (partial_command
        {| data := Parsed (VObject [("command", VObject [("toString", VNumber "1")]);
                                    ("so_far", VString "x")]) |})
     (run [onUserSubmit "hi"] (constructor (VString "s1")))).1 = Throw TypeError ∧
  snapshot
    (run [onUserSubmit "hi";
          partial_command
            {| data := Parsed (VObject [("command", VObject [("toString", VNumber "1")]);
                                        ("so_far", VString "x")]) |}]
       (constructor (VString "s1"))) =
    [{| content := VString "hi"; sender := VString "user" |};
     {| content := VString ""; sender := VString "ai" |}] ∧
  (handler (onPartialCommand "search" "ca")
     (run [addmessage
             {| detail := VObject [("content", VString "hi");
                                   ("sender", VObject [("toString", VNumber "1")])] |}]
        (constructor (VString "s1")))).1 = Throw TypeError ∧
  snapshot
    (run [addmessage
            {| detail := VObject [("content", VString "hi");
                                  ("sender", VObject [("toString", VNumber "1")])] |};
          onPartialCommand "search" "ca"]
       (constructor (VString "s1"))) =
    [{| content := VString "hi";
        sender := VObject [("toString", VNumber "1")] |}].
Proof. split_and!; reflexivity. Qed.

(** ** The sequence after a write to the last entry *)

Lemma wf_overwrite (l : loc) (c : value) (st : State) :
  wf st → wf (overwrite l c st).
Proof.
  intros [Hnd Hin]. split; [done|]. intros l' Hl'. cbn.
  apply lookup_alter_is_Some. by apply Hin.
Qed.

Lemma wf_sent (r : Request) (st : State) : wf st → wf (sent r st).
Proof. by intros [Hnd Hin]. Qed.

(** Under [wf], the last entry of the snapshot is the object the last
    reference points to. *)
Lemma snapshot_last_inv (st : State) (pre : list Message) (m : Message) :
  wf st →
  snapshot st = pre ++ [m] →
  ∃ ms l, messages st = ms ++ [l] ∧ heap st !! l = Some m ∧
          (l ∉ ms) ∧ omap (fun l => heap st !! l) ms = pre.
Proof.
  intros [Hnd Hin] Hsnap. unfold snapshot in Hsnap.
  destruct (last (messages st)) as [l|] eqn:Hl.
  2:{ apply last_None in Hl. rewrite Hl in Hsnap. by destruct pre. }
  apply last_Some in Hl as [ms Hms]. rewrite Hms in Hnd, Hin, Hsnap.
  exists ms, l.
  destruct (Hin l) as [m' Hm']; [apply elem_of_app; right; by left|].
  rewrite omap_app in Hsnap. cbn in Hsnap. rewrite Hm' in Hsnap. cbn in Hsnap.
  apply app_inj_tail in Hsnap as [Hpre <-].
  apply NoDup_app in Hnd as (_ & Hdisj & _).
  split_and!; [done|done| |done].
  intros Hl. apply (Hdisj l Hl). by left.
Qed.

Lemma snapshot_last (st : State) (l : loc) :
  wf st →
  last (messages st) = Some l →
  ∃ pre m, heap st !! l = Some m ∧ snapshot st = pre ++ [m].
Proof.
  intros [Hnd Hin] [ms Hms]%last_Some.
  destruct (Hin l) as [m Hm]; [rewrite Hms; apply elem_of_app; right; by left|].
  exists (omap (fun l => heap st !! l) ms), m. split; [done|].
  unfold snapshot. rewrite Hms, omap_app. cbn. by rewrite Hm.
Qed.

Lemma snapshot_overwrite_last (st : State) (pre : list Message)
    (l : loc) (m : Message) (c : value) :
  wf st →
  last (messages st) = Some l →
  heap st !! l = Some m →
  snapshot st = pre ++ [m] →
  snapshot (overwrite l c st) = pre ++ [{| content := c; sender := sender m |}].
Proof.
  intros Hwf Hl Hm Hsnap.
  destruct (snapshot_last_inv st pre m Hwf Hsnap) as (ms & l' & Hms & _ & Hnotin & Hpre).
  rewrite Hms, last_snoc in Hl. injection Hl as ->.
  unfold snapshot; cbn. rewrite Hms, omap_app. cbn.
  rewrite lookup_alter_eq, Hm. cbn. f_equal. rewrite <- Hpre.
  apply omap_lookup_ext. intros x Hx. apply lookup_alter_ne. by intros <-.
Qed.

(** ** What one delivery can do to the sequence *)

Lemma dispatch_effect (st : State) (ev : event) :
  wf st → effect st (dispatch st ev) ∧ wf (dispatch st ev).
Proof.
  intros Hwf. unfold dispatch. destruct ev as [e|[p]|[p]|[p]]; cbn [handler].
  - destruct (coercible (detail e)) eqn:Hd.
    + rewrite _addMessage_returns by done. cbn.
      destruct (strict_eq_str _ _); (split; [eapply appended|]);
        eauto using wf_sent with chat.
      apply (snapshot_push _ st Hwf).
    + rewrite _addMessage_throws by done. split; [by apply unchanged|done].
  - destruct p as [|v]; [|destruct (coercible v) eqn:Hv].
    + rewrite (_aiMessage_throws NotJSON) by done. split; [by apply unchanged|done].
    + rewrite _aiMessage_returns by done.
      split; [eapply appended|]; eauto with chat.
    + rewrite (_aiMessage_throws (Parsed v)) by done. split; [by apply unchanged|done].
  - destruct p as [|v]; [|destruct (coercible v) eqn:Hv].
    + rewrite (_imageMsg_throws NotJSON) by done. split; [by apply unchanged|done].
    + destruct (convertible (property v "url")) eqn:Hurl.
      * rewrite _imageMsg_returns by done.
        split; [eapply appended|]; eauto with chat.
      * rewrite _imageMsg_throws_converting by done.
        split; [by apply unchanged|done].
    + rewrite (_imageMsg_throws (Parsed v)) by done. split; [by apply unchanged|done].
  - destruct p as [|v].
    { rewrite _partialCmd_not_JSON. split; [by apply unchanged|done]. }
    destruct (last (messages st)) as [l|] eqn:Hl.
    2:{ apply last_None in Hl. rewrite _partialCmd_empty by done.
        split; [by apply unchanged|done]. }
    destruct (snapshot_last st l Hwf Hl) as (pre & m & Hm & Hsnap).
    destruct (convertible (sender m)) eqn:Hconv.
    2:{ rewrite (_partialCmd_throws_at_test v st l m) by done.
        split; [by apply unchanged|done]. }
    destruct (text_payload v) eqn:Hv.
    + destruct (loose_eq_str (sender m) "ai") eqn:Hai.
      * rewrite (_partialCmd_continues v st l m) by done. cbn.
        split; [|by apply wf_overwrite].
        eapply rewritten; [done|]. by apply snapshot_overwrite_last.
      * rewrite (_partialCmd_starts v st l m) by done. cbn.
        split; [eapply appended|]; eauto with chat.
    + rewrite (_partialCmd_throws_late v st l m) by done. cbn.
      destruct (loose_eq_str (sender m) "ai").
      * split; [by apply unchanged|done].
      * split; [eapply appended|]; eauto with chat.
Qed.

Lemma wf_dispatch (st : State) (ev : event) : wf st → wf (dispatch st ev).
Proof. intros Hwf. by apply dispatch_effect. Qed.

Lemma wf_run (evs : list event) (st : State) : wf st → wf (run evs st).
Proof.
  revert st. induction evs as [|ev evs IH]; intros st Hwf; [done|].
  cbn. apply IH. by apply wf_dispatch.
Qed.

(** Every state the component reaches from its constructor is [wf]. *)
Lemma wf_reachable (sid : value) (evs : list event) :
  wf (run evs (constructor sid)).
Proof. apply wf_run, wf_constructor. Qed.

Lemma effect_frame (st st' : State) (i : nat) :
  effect st st' →
  i + 1 < length (snapshot st) →
  snapshot st' !! i = snapshot st !! i.
Proof.
  intros [Heq|m Heq|pre m c Hst Hst'] Hi.
  - by rewrite Heq.
  - rewrite Heq. apply lookup_app_l. lia.
  - rewrite Hst, Hst'. rewrite Hst, length_app in Hi. cbn in Hi.
    rewrite !lookup_app_l by lia. done.
Qed.

Lemma effect_length (st st' : State) :
  effect st st' → length (snapshot st) ≤ length (snapshot st').
Proof.
  intros [Heq|m Heq|pre m c Hst Hst'].
  - by rewrite Heq.
  - rewrite Heq, length_app. lia.
  - rewrite Hst, Hst', !length_app. done.
Qed.

Lemma run_cons (ev : event) (evs : list event) (st : State) :
  run (ev :: evs) st = run evs (dispatch st ev).
Proof. done. Qed.

(** ** [onPartialCommand] *)

(** On a sequence that has a last entry, [onPartialCommand] returns and
    does what the specification describes: it writes [command: soFar] into
    the last entry when that entry's sender is (loosely) equal to 'ai',
    and into a new entry [{ content: '', sender: 'ai' }] otherwise.  The
    sender of the last entry is one the comparison does not throw on. *)
Lemma onPartialCommand_nonempty (st : State) (pre : list Message)
    (m : Message) (command soFar : string) :
  wf st →
  snapshot st = pre ++ [m] →
  convertible (sender m) = true →
  (handler (onPartialCommand command soFar) st).1 = Return tt ∧
  snapshot (dispatch st (onPartialCommand command soFar)) =
    (if loose_eq_str (sender m) "ai"
     then pre ++ [{| content := VString (command +:+ ": " +:+ soFar);
                     sender := sender m |}]
     else pre ++ [m; {| content := VString (command +:+ ": " +:+ soFar);
                        sender := VString "ai" |}]).
Proof.
  intros Hwf Hsnap Hconv.
  destruct (snapshot_last_inv st pre m Hwf Hsnap) as (ms & l & Hms & Hm & _ & _).
  assert (last (messages st) = Some l) as Hl by (rewrite Hms; apply last_snoc).
  unfold onPartialCommand. deliver.
  destruct (loose_eq_str (sender m) "ai") eqn:Hai.
  - rewrite (_partialCmd_continues _ st l m) by done. cbn [fst snd].
    split; [done|]. by apply snapshot_overwrite_last.
  - rewrite (_partialCmd_starts _ st l m) by done. cbn [fst snd].
    split; [done|]. rewrite snapshot_push, Hsnap by done.
    by rewrite <- app_assoc.
Qed.

(** A run of [onPartialCommand] calls on a sequence whose last entry is an
    'ai' entry keeps rewriting that entry. *)
Lemma partial_commands_rewrite (st : State) (base : list Message) (m : Message)
    (calls : list (string * string)) :
  wf st →
  snapshot st = base ++ [m] →
  sender m = VString "ai" →
  snapshot (run (map (fun c => onPartialCommand c.1 c.2) calls) st) =
    base ++ [default m (partial_entry <$> last calls)].
Proof.
  revert st m. induction calls as [|c calls IH]; intros st m Hwf Hsnap Hai; [done|].
  rewrite map_cons, run_cons.
  destruct (onPartialCommand_nonempty st base m c.1 c.2 Hwf Hsnap) as [_ Hstep];
    [by rewrite Hai|].
  rewrite Hai in Hstep. cbn [loose_eq_str String.eqb Ascii.eqb Bool.eqb] in Hstep.
  rewrite (IH _ (partial_entry c)); [|by apply wf_dispatch|done|done].
  rewrite last_cons. by destruct (last calls).
Qed.

(** C1 (defect in the code).  The claim lets [onPartialCommand] start from
    the empty sequence by appending [{ content: '', sender: 'ai' }].
    [_partialCmd] reads [this.messages[this.messages.length-1].sender]
    without testing for the empty array: on the empty sequence, for every
    command and soFar, it throws a [TypeError] and leaves the state as it
    was, so nothing is appended. *)
Theorem C1_onPartialCommand_on_empty_throws
    (h : gmap loc Message) (sid : value) (rs : list Request)
    (command soFar : string) :
  handler (onPartialCommand command soFar)
    {| heap := h; sessionid := sid; messages := []; fetched := rs |} =
  (Throw TypeError,
   {| heap := h; sessionid := sid; messages := []; fetched := rs |}).
Proof. by apply _partialCmd_empty. Qed.

(** C2 (defect in the code, the one of C1).  Delivered to the component as
    constructed, every [onPartialCommand] call of a run throws a
    [TypeError] and the sequence stays empty: its length is 0 where the
    claim says 1.  The second scenario of the specification ends with the
    empty sequence. *)
Theorem C2_partial_commands_from_constructor
    (sid : value) (calls : list (string * string)) :
  run (map (fun c => onPartialCommand c.1 c.2) calls) (constructor sid) =
    constructor sid ∧
  outcomes (map (fun c => onPartialCommand c.1 c.2) calls) (constructor sid) =
    map (fun _ => Throw TypeError) calls ∧
  snapshot (run [onPartialCommand "search" "ca"; onPartialCommand "search" "cat"]
              (constructor sid)) = [].
Proof.
  split_and!; [| |done].
  - induction calls as [|c calls IH]; [done|].
    rewrite map_cons, run_cons. exact IH.
  - induction calls as [|c calls IH]; [done|].
    rewrite !map_cons. cbn [outcomes]. f_equal. exact IH.
Qed.

(** C5 (defect in the code, the one of C1).  [onFinalMessage] never
    coalesces, as claimed (see C4), but the third scenario of the
    specification does not yield two entries: from the component as
    constructed [onPartialCommand] throws and appends nothing, so
    [onFinalMessage] leaves the single entry 'Done'. *)
Theorem C5_partial_then_final_from_constructor (sid : value) :
  outcomes [onPartialCommand "search" "cat"; onFinalMessage "Done"]
    (constructor sid) = [Throw TypeError; Return tt] ∧
  snapshot (run [onPartialCommand "search" "cat"; onFinalMessage "Done"]
              (constructor sid)) =
    [{| content := VString "Done"; sender := VString "ai" |}].
Proof. done. Qed.

(** ** [onUserSubmit], [onFinalMessage], [onImageMessage] *)

Lemma onUserSubmit_state (content : string) (st : State) :
  handler (onUserSubmit content) st =
    (Return tt,
     sent (send_request (sessionid st) (VString content))
       (push {| content := VString content; sender := VString "user" |} st)).
Proof. unfold onUserSubmit. cbn [handler]. by rewrite _addMessage_returns. Qed.

Lemma onFinalMessage_state (content : string) (st : State) :
  handler (onFinalMessage content) st =
    (Return tt, push {| content := VString content; sender := VString "ai" |} st).
Proof. unfold onFinalMessage. cbn [handler]. by rewrite _aiMessage_returns. Qed.

Lemma onImageMessage_state (url : string) (st : State) :
  handler (onImageMessage url) st =
    (Return tt,
     push {| content := VString (image_markup (VString url));
             sender := VString "ai" |} st).
Proof. unfold onImageMessage. cbn [handler]. by rewrite _imageMsg_returns. Qed.

(** C3.  After [onUserSubmit], whatever the sequence was before it, the
    next [onPartialCommand] returns and appends exactly one entry, the
    'ai' entry with the text [command: soFar]; the entries before it,
    the user entry among them, are as they were. *)
Theorem C3_partial_command_after_user_submit
    (st : State) (content command soFar : string) :
  wf st →
  ∃ st1 st2,
    handler (onUserSubmit content) st = (Return tt, st1) ∧
    handler (onPartialCommand command soFar) st1 = (Return tt, st2) ∧
    snapshot st1 =
      snapshot st ++ [{| content := VString content; sender := VString "user" |}] ∧
    snapshot st2 =
      snapshot st1 ++ [{| content := VString (command +:+ ": " +:+ soFar);
                          sender := VString "ai" |}] ∧
    length (snapshot st2) = length (snapshot st1) + 1.
Proof.
  intros Hwf.
  pose proof (wf_sent (send_request (sessionid st) (VString content)) _
                (wf_push {| content := VString content; sender := VString "user" |}
                   st Hwf)) as Hwf1.
  pose proof (snapshot_push {| content := VString content; sender := VString "user" |}
                st Hwf) as Hsnap1.
  destruct (onPartialCommand_nonempty _ _ _ command soFar Hwf1 Hsnap1 eq_refl)
    as [Hret Hsnap2].
  cbn [sender loose_eq_str String.eqb Ascii.eqb Bool.eqb] in Hsnap2.
  exists (sent (send_request (sessionid st) (VString content))
            (push {| content := VString content; sender := VString "user" |} st)),
         (dispatch
            (sent (send_request (sessionid st) (VString content))
               (push {| content := VString content; sender := VString "user" |} st))
            (onPartialCommand command soFar)).
  split; [apply onUserSubmit_state|].
  split_and!.
  - unfold dispatch. destruct (handler _ _) as [o st2]. cbn in Hret. by subst o.
  - exact Hsnap1.
  - rewrite Hsnap2. change (snapshot (sent _ ?s)) with (snapshot s).
    rewrite Hsnap1. by rewrite <- app_assoc.
  - rewrite Hsnap2. change (snapshot (sent _ ?s)) with (snapshot s).
    rewrite Hsnap1, !length_app. cbn. lia.
Qed.

Lemma C3_witness :
  wf (constructor (VString "s1")) ∧
  ∃ st1 st2,
    handler (onUserSubmit "hi") (constructor (VString "s1")) = (Return tt, st1) ∧
    handler (onPartialCommand "search" "ca") st1 = (Return tt, st2) ∧
    snapshot st1 =
      snapshot (constructor (VString "s1")) ++
        [{| content := VString "hi"; sender := VString "user" |}] ∧
    snapshot st2 =
      snapshot st1 ++ [{| content := VString ("search" +:+ ": " +:+ "ca");
                          sender := VString "ai" |}] ∧
    length (snapshot st2) = length (snapshot st1) + 1.
Proof.
  split; [apply wf_constructor|].
  apply (C3_partial_command_after_user_submit (constructor (VString "s1"))).
  apply wf_constructor.
Defined.

Lemma ai_event_state (c : ai_call) (st : State) :
  handler (ai_event c) st = (Return tt, push (ai_entry c) st).
Proof.
  destruct c; [apply onFinalMessage_state|apply onImageMessage_state].
Qed.

(** C4.  From any state, every call of a run of [onFinalMessage] and
    [onImageMessage] calls returns; the sequence at the end is the one at
    the start followed by one entry per call, in order, each with sender
    'ai'; so its length is the starting length plus the number of calls. *)
Theorem C4_final_and_image_calls_append (st : State) (calls : list ai_call) :
  wf st →
  outcomes (map ai_event calls) st = map (fun _ => Return tt) calls ∧
  snapshot (run (map ai_event calls) st) = snapshot st ++ map ai_entry calls ∧
  Forall (fun m => sender m = VString "ai") (map ai_entry calls) ∧
  length (snapshot (run (map ai_event calls) st)) =
    length (snapshot st) + length calls.
Proof.
  intros Hwf.
  assert (outcomes (map ai_event calls) st = map (fun _ => Return tt) calls ∧
          snapshot (run (map ai_event calls) st) = snapshot st ++ map ai_entry calls)
    as [Hout Hsnap].
  { revert st Hwf. induction calls as [|c calls IH]; intros st Hwf.
    - split; [done|]. cbn. by rewrite app_nil_r.
    - rewrite !map_cons, run_cons. cbn [outcomes]. unfold dispatch.
      rewrite ai_event_state. cbn [fst snd].
      destruct (IH (push (ai_entry c) st)) as [-> ->]; [by apply wf_push|].
      split; [done|]. rewrite snapshot_push by done. by rewrite <- app_assoc. }
  split_and!; [done|done| |].
  - apply Forall_forall. intros m [c [-> _]]%list_elem_of_fmap. by destruct c.
  - rewrite Hsnap, length_app, length_map. done.
Qed.

Lemma C4_witness :
  wf (constructor (VString "s1")) ∧
  snapshot (run (map ai_event [Final "Done"; Image "http://x/y.png"; Final "Done"])
              (constructor (VString "s1"))) =
    snapshot (constructor (VString "s1")) ++
      map ai_entry [Final "Done"; Image "http://x/y.png"; Final "Done"].
Proof.
  split; [apply wf_constructor|].
  apply (C4_final_and_image_calls_append (constructor (VString "s1"))).
  apply wf_constructor.
Defined.

(** C6.  [onUserSubmit content] returns, appends exactly one entry, with
    sender 'user' and the submitted text as content, and issues exactly
    one request, a POST to the session's send address whose body is the
    JSON text of [{ message: content }].  The handler drops the promise of
    [fetch]: nothing of this depends on how the request fares. *)
Theorem C6_user_submit_appends_and_forwards (st : State) (content : string) :
  wf st →
  (handler (onUserSubmit content) st).1 = Return tt ∧
  snapshot (dispatch st (onUserSubmit content)) =
    snapshot st ++ [{| content := VString content; sender := VString "user" |}] ∧
  fetched (dispatch st (onUserSubmit content)) =
    fetched st ++
      [{| url := "/chat/" +:+ ToString (sessionid st) +:+ "/send";
          method := "POST";
          headers := [("Content-Type", "application/json")];
          body := VObject [("message", VString content)] |}].
Proof.
  intros Hwf. unfold dispatch. rewrite onUserSubmit_state. cbn [fst snd].
  split_and!; [done| |done].
  apply (snapshot_push _ st Hwf).
Qed.

Lemma C6_witness :
  wf (constructor (VString "s1")) ∧
  snapshot (dispatch (constructor (VString "s1")) (onUserSubmit "hi")) =
    snapshot (constructor (VString "s1")) ++
      [{| content := VString "hi"; sender := VString "user" |}].
Proof.
  split; [apply wf_constructor|].
  apply (C6_user_submit_appends_and_forwards (constructor (VString "s1")) "hi").
  apply wf_constructor.
Defined.

(** ** Entries that are no longer last *)

Lemma dispatch_frame (st : State) (ev : event) (i : nat) :
  wf st →
  i + 1 < length (snapshot st) →
  snapshot (dispatch st ev) !! i = snapshot st !! i.
Proof.
  intros Hwf Hi. apply effect_frame; [|done]. by apply dispatch_effect.
Qed.

Lemma dispatch_length (st : State) (ev : event) :
  wf st → length (snapshot st) ≤ length (snapshot (dispatch st ev)).
Proof. intros Hwf. by apply effect_length, dispatch_effect. Qed.

(** C7.  Whatever events are delivered, with whatever payloads, and
    whether their handlers return or throw, an entry that has an entry
    after it keeps its content and sender: only the last entry of the
    sequence is ever written. *)
Theorem C7_only_the_last_entry_is_written
    (st : State) (evs : list event) (i : nat) (m : Message) :
  wf st →
  i + 1 < length (snapshot st) →
  snapshot st !! i = Some m →
  snapshot (run evs st) !! i = Some m.
Proof.
  revert st. induction evs as [|ev evs IH]; intros st Hwf Hi Hm; [done|].
  rewrite run_cons. apply IH.
  - by apply wf_dispatch.
  - pose proof (dispatch_length st ev Hwf). lia.
  - by rewrite dispatch_frame.
Qed.

Lemma C7_witness :
  wf (run [onUserSubmit "hi"; onFinalMessage "Done"] (constructor (VString "s1"))) ∧
  snapshot
    (run [onPartialCommand "search" "cat"; onImageMessage "http://x/y.png";
          new_message {| data := Parsed VNull |}; onPartialCommand "search" "dog"]
       (run [onUserSubmit "hi"; onFinalMessage "Done"] (constructor (VString "s1"))))
    !! 0 = Some {| content := VString "hi"; sender := VString "user" |}.
Proof.
  split; [apply wf_reachable|].
  apply C7_only_the_last_entry_is_written.
  - apply wf_reachable.
  - vm_compute. lia.
  - reflexivity.
Defined.

(** ** Image markup *)

(** C9.  [onImageMessage url] returns and appends exactly one entry, with
    sender 'ai'; its content is the [img] element whose [src] attribute is
    [url], unescaped, so [url] is a substring of it. *)
Theorem C9_image_message_embeds_url (st : State) (url : string) :
  wf st →
  (handler (onImageMessage url) st).1 = Return tt ∧
  ∃ m pre post,
    snapshot (dispatch st (onImageMessage url)) = snapshot st ++ [m] ∧
    sender m = VString "ai" ∧
    content m = VString (pre +:+ url +:+ post) ∧
    pre = "<img src=" +:+ dq ∧
    post = dq +:+ " alt=" +:+ dq +:+ "image" +:+ dq +:+ ">".
Proof.
  intros Hwf. unfold dispatch. rewrite onImageMessage_state. cbn [fst snd].
  split; [done|].
  exists {| content := VString (image_markup (VString url));
            sender := VString "ai" |},
         ("<img src=" +:+ dq), (dq +:+ " alt=" +:+ dq +:+ "image" +:+ dq +:+ ">").
  split; [by apply snapshot_push|].
  split; [done|]. split; [|done].
  reflexivity.
Qed.

(** The fourth scenario of the specification. *)
Lemma C9_witness :
  wf (constructor (VString "s1")) ∧
  (handler (onImageMessage "http://x/y.png") (constructor (VString "s1"))).1 =
    Return tt ∧
  ∃ m pre post,
    snapshot (dispatch (constructor (VString "s1")) (onImageMessage "http://x/y.png")) =
      snapshot (constructor (VString "s1")) ++ [m] ∧
    sender m = VString "ai" ∧
    content m = VString (pre +:+ "http://x/y.png" +:+ post) ∧
    pre = "<img src=" +:+ dq ∧
    post = dq +:+ " alt=" +:+ dq +:+ "image" +:+ dq +:+ ">".
Proof.
  split; [apply wf_constructor|].
  apply (C9_image_message_embeds_url (constructor (VString "s1")) "http://x/y.png").
  apply wf_constructor.
Defined.

(** ** Forwarding *)

Lemma strict_eq_str_true (v : value) (s : string) :
  strict_eq_str v s = true ↔ v = VString s.
Proof.
  destruct v; cbn; try (split; [discriminate|congruence]).
  rewrite String.eqb_eq. split; congruence.
Qed.

Lemma property_coercible (v : value) (k s : string) :
  property v k = VString s → coercible v = true.
Proof. by destruct v. Qed.

Lemma addmessage_appends (st : State) (e : CustomEvent) :
  wf st →
  coercible (detail e) = true →
  (handler (addmessage e) st).1 = Return tt ∧
  snapshot (dispatch st (addmessage e)) =
    snapshot st ++ [{| content := property (detail e) "content";
                       sender := property (detail e) "sender" |}].
Proof.
  intros Hwf Hd. deliver.
  rewrite _addMessage_returns by done. cbn.
  split; [done|]. destruct (strict_eq_str _ _); apply (snapshot_push _ st Hwf).
Qed.

(** C10.  [_addMessage] calls [fetch] exactly when the sender of the
    incoming message is the string 'user' (the test is [===]): then it
    issues one request; for any other sender it issues none.  The entry
    is appended in both cases, for every event that carries a message
    (a [detail] other than [null] or [undefined]). *)
Theorem C10_forwards_iff_sender_is_user (st : State) (e : CustomEvent) :
  wf st →
  (property (detail e) "sender" = VString "user" →
   fetched (dispatch st (addmessage e)) =
     fetched st ++ [send_request (sessionid st) (property (detail e) "content")]) ∧
  (property (detail e) "sender" ≠ VString "user" →
   fetched (dispatch st (addmessage e)) = fetched st) ∧
  (coercible (detail e) = true →
   (handler (addmessage e) st).1 = Return tt ∧
   snapshot (dispatch st (addmessage e)) =
     snapshot st ++ [{| content := property (detail e) "content";
                        sender := property (detail e) "sender" |}]).
Proof.
  intros Hwf. split_and!; [| |by apply addmessage_appends].
  - intros Hs. deliver.
    rewrite _addMessage_returns by (by eapply property_coercible).
    cbn. rewrite Hs. done.
  - intros Hs. deliver.
    destruct (coercible (detail e)) eqn:Hd.
    + rewrite _addMessage_returns by done. cbn.
      destruct (strict_eq_str _ _) eqn:Heq; [|done].
      by apply strict_eq_str_true in Heq.
    + by rewrite _addMessage_throws.
Qed.

Lemma C10_witness :
  wf (constructor (VString "s1")) ∧
  fetched (dispatch (constructor (VString "s1"))
             (addmessage {| detail := VObject [("content", VString "hi");
                                               ("sender", VString "ai")] |})) =
    fetched (constructor (VString "s1")).
Proof.
  split; [apply wf_constructor|].
  apply (C10_forwards_iff_sender_is_user (constructor (VString "s1"))
           {| detail := VObject [("content", VString "hi"); ("sender", VString "ai")] |}).
  - apply wf_constructor.
  - discriminate.
Defined.

(** ** Malformed payloads *)

Lemma own_property_missing (props : list (string * value)) (k : string) :
  k ∉ props.*1 → own_property props k = VUndefined.
Proof.
  induction props as [|[k' v] props IH]; intros Hk; [done|]. cbn.
  destruct (String.eqb_spec k' k) as [->|_].
  - exfalso. apply Hk. by left.
  - apply IH. intros Hin. apply Hk. by right.
Qed.

(** C8, as claimed, fails: no handler validates its payload.  A
    [new_message] event whose payload [{}] lacks [content] is not dropped:
    an entry with content [undefined] is appended.  A [partial_command]
    event whose payload [{}] lacks both fields writes the text
    'undefined: undefined'.  A payload [null] makes [_aiMessage] throw a
    [TypeError], and a [data] that is not JSON makes [_imageMsg] throw a
    [SyntaxError]; both leave the handler and reach the host. *)
Lemma C8_malformed_payloads_are_not_dropped :
  handler (new_message {| data := Parsed (VObject []) |}) (constructor (VString "s1")) =
    (Return tt,
     push {| content := VUndefined; sender := VString "ai" |}
       (constructor (VString "s1"))) ∧
  snapshot (dispatch (constructor (VString "s1"))
              (new_message {| data := Parsed (VObject []) |})) =
    [{| content := VUndefined; sender := VString "ai" |}] ∧
  snapshot (run [onUserSubmit "hi"; partial_command {| data := Parsed (VObject []) |}]
              (constructor (VString "s1"))) =
    [{| content := VString "hi"; sender := VString "user" |};
     {| content := VString "undefined: undefined"; sender := VString "ai" |}] ∧
  handler (new_message {| data := Parsed VNull |}) (constructor (VString "s1")) =
    (Throw TypeError, constructor (VString "s1")) ∧
  handler (image {| data := NotJSON |}) (constructor (VString "s1")) =
    (Throw SyntaxError, constructor (VString "s1")).
Proof. split_and!; reflexivity. Qed.

(** C8, amended.  No payload is validated or dropped.
    - A field that the payload object lacks reads as [undefined].
    - For a payload other than [null] and [undefined], [_aiMessage] and
      [_addMessage] return and append their entry, built from the fields
      as read.  [_imageMsg] does so too when the [url] as read converts
      to a string, as [undefined] does.  [_partialCmd] does so on a
      sequence that has a last entry, when the sender of that entry can
      be compared with 'ai' and both fields as read convert to strings:
      the text goes into the last entry or into a new one after it.
    - When [data] is not JSON, the three [EventSource] handlers throw a
      [SyntaxError]; for a payload [null] or [undefined], [_aiMessage],
      [_imageMsg] and [_addMessage] throw a [TypeError]; for a [url] that
      does not convert (an object with a [toString] of its own),
      [_imageMsg] throws a [TypeError]; the sequence is then as before.
      On a sequence that has a last entry, [_partialCmd] throws a
      [TypeError] for a payload [null] and for a field that does not
      convert. *)
Theorem C8_payloads_are_used_as_they_come (st : State) :
  wf st →
  (∀ props k, k ∉ props.*1 → property (VObject props) k = VUndefined) ∧
  (∀ v, coercible v = true →
     (handler (new_message {| data := Parsed v |}) st).1 = Return tt ∧
     snapshot (dispatch st (new_message {| data := Parsed v |})) =
       snapshot st ++ [{| content := property v "content"; sender := VString "ai" |}]) ∧
  (∀ v, coercible v = true → convertible (property v "url") = true →
     (handler (image {| data := Parsed v |}) st).1 = Return tt ∧
     snapshot (dispatch st (image {| data := Parsed v |})) =
       snapshot st ++ [{| content := VString (image_markup (property v "url"));
                          sender := VString "ai" |}]) ∧
  (∀ d, coercible d = true →
     (handler (addmessage {| detail := d |}) st).1 = Return tt ∧
     snapshot (dispatch st (addmessage {| detail := d |})) =
       snapshot st ++ [{| content := property d "content";
                          sender := property d "sender" |}]) ∧
  (∀ v pre m, text_payload v = true →
     snapshot st = pre ++ [m] → convertible (sender m) = true →
     (handler (partial_command {| data := Parsed v |}) st).1 = Return tt ∧
     snapshot (dispatch st (partial_command {| data := Parsed v |})) =
       (if loose_eq_str (sender m) "ai"
        then pre ++ [{| content :=
                          VString (command_text (property v "command")
                                     (property v "so_far"));
                        sender := sender m |}]
        else pre ++ [m; {| content :=
                             VString (command_text (property v "command")
                                        (property v "so_far"));
                           sender := VString "ai" |}])) ∧
  (handler (new_message {| data := NotJSON |}) st = (Throw SyntaxError, st) ∧
   handler (image {| data := NotJSON |}) st = (Throw SyntaxError, st) ∧
   handler (partial_command {| data := NotJSON |}) st = (Throw SyntaxError, st)) ∧
  (∀ v, coercible v = false →
     handler (new_message {| data := Parsed v |}) st = (Throw TypeError, st) ∧
     handler (image {| data := Parsed v |}) st = (Throw TypeError, st) ∧
     handler (addmessage {| detail := v |}) st = (Throw TypeError, st)) ∧
  (∀ v, coercible v = true → convertible (property v "url") = false →
     handler (image {| data := Parsed v |}) st = (Throw TypeError, st)) ∧
  (∀ v pre m, text_payload v = false → snapshot st = pre ++ [m] →
     (handler (partial_command {| data := Parsed v |}) st).1 = Throw TypeError).
Proof.
  intros Hwf. split_and!.
  - intros props k Hk. by apply own_property_missing.
  - intros v Hv. deliver.
    rewrite _aiMessage_returns by done. split; [done|]. by apply snapshot_push.
  - intros v Hv Hurl. deliver.
    rewrite _imageMsg_returns by done. split; [done|]. by apply snapshot_push.
  - intros d Hd. by apply (addmessage_appends st {| detail := d |}).
  - intros v pre m Hv Hsnap Hconv.
    destruct (snapshot_last_inv st pre m Hwf Hsnap) as (ms & l & Hms & Hm & _ & _).
    assert (last (messages st) = Some l) as Hl by (rewrite Hms; apply last_snoc).
    deliver.
    destruct (loose_eq_str (sender m) "ai") eqn:Hai.
    + rewrite (_partialCmd_continues v st l m) by done. cbn [fst snd].
      split; [done|]. by apply snapshot_overwrite_last.
    + rewrite (_partialCmd_starts v st l m) by done. cbn [fst snd].
      split; [done|]. rewrite snapshot_push, Hsnap by done.
      by rewrite <- app_assoc.
  - apply (_aiMessage_throws NotJSON). done.
  - apply (_imageMsg_throws NotJSON). done.
  - apply _partialCmd_not_JSON.
  - intros v Hv. split_and!.
    + by apply (_aiMessage_throws (Parsed v)).
    + by apply (_imageMsg_throws (Parsed v)).
    + by apply _addMessage_throws.
  - intros v Hv Hurl. by apply _imageMsg_throws_converting.
  - intros v pre m Hv Hsnap.
    destruct (snapshot_last_inv st pre m Hwf Hsnap) as (ms & l & Hms & Hm & _ & _).
    assert (last (messages st) = Some l) as Hl by (rewrite Hms; apply last_snoc).
    deliver. destruct (convertible (sender m)) eqn:Hconv.
    + by rewrite (_partialCmd_throws_late v st l m).
    + by rewrite (_partialCmd_throws_at_test v st l m).
Qed.

Lemma C8_witness :
  wf (constructor (VString "s1")) ∧
  (handler (image {| data := Parsed (VObject [("src", VString "http://x/y.png")]) |})
     (constructor (VString "s1"))).1 = Return tt ∧
  snapshot (dispatch (constructor (VString "s1"))
              (image {| data := Parsed (VObject [("src", VString "http://x/y.png")]) |})) =
    snapshot (constructor (VString "s1")) ++
      [{| content :=
            VString (image_markup
                       (property (VObject [("src", VString "http://x/y.png")]) "url"));
          sender := VString "ai" |}].
Proof.
  split; [apply wf_constructor|].
  apply (C8_payloads_are_used_as_they_come (constructor (VString "s1"))
           (wf_constructor (VString "s1"))).
  - reflexivity.
  - reflexivity.
Defined.

(** ** [onPartialCommand] where it does not throw *)

(** X1.  On a sequence with a last entry whose sender is a string,
    [onPartialCommand] returns; it overwrites the content of the last entry
    when that sender is 'ai', and appends one 'ai' entry holding the text
    otherwise.  The entries before are as they were. *)
Theorem X1_partial_command_on_nonempty_sequence
    (st : State) (pre : list Message) (m : Message) (s command soFar : string) :
  wf st →
  snapshot st = pre ++ [m] →
  sender m = VString s →
  (handler (onPartialCommand command soFar) st).1 = Return tt ∧
  (s = "ai" →
   snapshot (dispatch st (onPartialCommand command soFar)) =
     pre ++ [partial_entry (command, soFar)]) ∧
  (s ≠ "ai" →
   snapshot (dispatch st (onPartialCommand command soFar)) =
     pre ++ [m; partial_entry (command, soFar)]).
Proof.
  intros Hwf Hsnap Hs.
  destruct (onPartialCommand_nonempty st pre m command soFar Hwf Hsnap)
    as [Hret Hstep]; [by rewrite Hs|].
  rewrite Hs in Hstep. cbn [loose_eq_str] in Hstep.
  split_and!; [done| |].
  - intros ->. exact Hstep.
  - intros Hne%String.eqb_neq. by rewrite Hne in Hstep.
Qed.

Lemma X1_witness :
  wf (run [onUserSubmit "hi"] (constructor (VString "s1"))) ∧
  snapshot (dispatch (run [onUserSubmit "hi"] (constructor (VString "s1")))
              (onPartialCommand "search" "ca")) =
    [{| content := VString "hi"; sender := VString "user" |};
     partial_entry ("search", "ca")].
Proof.
  split; [apply wf_reachable|].
  apply (X1_partial_command_on_nonempty_sequence
           (run [onUserSubmit "hi"] (constructor (VString "s1"))) []
           {| content := VString "hi"; sender := VString "user" |} "user").
  - apply wf_reachable.
  - reflexivity.
  - reflexivity.
  - discriminate.
Defined.

(** X2.  On a sequence with a last entry whose sender is a string, a run
    of [onPartialCommand] calls that is not empty collapses into one
    entry holding the text of the most recent call: the last entry itself
    when its sender is 'ai', a single new entry after it otherwise. *)
Theorem X2_partial_commands_collapse
    (st : State) (pre : list Message) (m : Message) (s : string)
    (calls : list (string * string)) (c : string * string) :
  wf st →
  snapshot st = pre ++ [m] →
  sender m = VString s →
  (s = "ai" →
   snapshot (run (map (fun c => onPartialCommand c.1 c.2) (calls ++ [c])) st) =
     pre ++ [partial_entry c]) ∧
  (s ≠ "ai" →
   snapshot (run (map (fun c => onPartialCommand c.1 c.2) (calls ++ [c])) st) =
     pre ++ [m; partial_entry c]).
Proof.
  intros Hwf Hsnap Hs. split.
  - intros ->. rewrite (partial_commands_rewrite st pre m) by done.
    by rewrite last_snoc.
  - intros Hne%String.eqb_neq.
    assert (∀ c', snapshot (dispatch st (onPartialCommand c'.1 c'.2)) =
                  pre ++ [m; partial_entry c']) as Hfirst.
    { intros c'.
      destruct (onPartialCommand_nonempty st pre m c'.1 c'.2 Hwf Hsnap) as [_ H0];
        [by rewrite Hs|].
      rewrite Hs in H0. cbn [loose_eq_str] in H0. by rewrite Hne in H0. }
    destruct calls as [|c0 calls]; cbn [app]; rewrite map_cons, run_cons.
    + apply Hfirst.
    + rewrite (partial_commands_rewrite _ (pre ++ [m]) (partial_entry c0)).
      * rewrite last_snoc. cbn. by rewrite <- app_assoc.
      * by apply wf_dispatch.
      * rewrite Hfirst. by rewrite <- app_assoc.
      * done.
Qed.

Lemma X2_witness :
  wf (run [onUserSubmit "hi"] (constructor (VString "s1"))) ∧
  snapshot (run (map (fun c => onPartialCommand c.1 c.2)
                   ([("search", "c"); ("search", "ca")] ++ [("search", "cat")]))
              (run [onUserSubmit "hi"] (constructor (VString "s1")))) =
    [{| content := VString "hi"; sender := VString "user" |};
     partial_entry ("search", "cat")].
Proof.
  split; [apply wf_reachable|].
  apply (X2_partial_commands_collapse
           (run [onUserSubmit "hi"] (constructor (VString "s1"))) []
           {| content := VString "hi"; sender := VString "user" |} "user").
  - apply wf_reachable.
  - reflexivity.
  - reflexivity.
  - discriminate.
Defined.

(** ** What a run of events leaves behind *)

Lemma _partialCmd_dangling (v : value) (st : State) (l : loc) :
  last (messages st) = Some l →
  heap st !! l = None →
  _partialCmd {| data := Parsed v |} st = (Throw TypeError, st).
Proof.
  intros Hl Hm. sequence _partialCmd. cbn.
  rewrite index_last_elem, Hl. cbn. by rewrite Hm.
Qed.

(** The part of the state that one delivery leaves alone or extends. *)
Lemma dispatch_footprint (st : State) (ev : event) :
  sessionid (dispatch st ev) = sessionid st ∧
  fetched (dispatch st ev) = fetched st ++ forwarded (sessionid st) ev ∧
  (messages (dispatch st ev) = messages st ∨
   messages (dispatch st ev) = messages st ++ [fresh (dom (heap st))]).
Proof.
  destruct ev as [e|[p]|[p]|[p]]; deliver; cbn [forwarded].
  - destruct (coercible (detail e)) eqn:Hd.
    + rewrite _addMessage_returns by done. cbn.
      destruct (strict_eq_str _ _); cbn; rewrite ?app_nil_r; auto.
    + rewrite _addMessage_throws by done. cbn.
      destruct (detail e); try discriminate; cbn; rewrite app_nil_r; auto.
  - rewrite app_nil_r. destruct p as [|v]; [|destruct (coercible v) eqn:Hv].
    + rewrite (_aiMessage_throws NotJSON) by done. auto.
    + rewrite _aiMessage_returns by done. cbn. auto.
    + rewrite (_aiMessage_throws (Parsed v)) by done. auto.
  - rewrite app_nil_r. destruct p as [|v]; [|destruct (coercible v) eqn:Hv].
    + rewrite (_imageMsg_throws NotJSON) by done. auto.
    + destruct (convertible (property v "url")) eqn:Hurl.
      * rewrite _imageMsg_returns by done. cbn. auto.
      * rewrite _imageMsg_throws_converting by done. auto.
    + rewrite (_imageMsg_throws (Parsed v)) by done. auto.
  - rewrite app_nil_r. destruct p as [|v].
    { rewrite _partialCmd_not_JSON. auto. }
    destruct (last (messages st)) as [l|] eqn:Hl.
    2:{ apply last_None in Hl. rewrite _partialCmd_empty by done. auto. }
    destruct (heap st !! l) as [m|] eqn:Hm.
    2:{ rewrite (_partialCmd_dangling v st l) by done. auto. }
    destruct (convertible (sender m)) eqn:Hconv.
    2:{ rewrite (_partialCmd_throws_at_test v st l m) by done. auto. }
    destruct (text_payload v) eqn:Hv.
    + destruct (loose_eq_str (sender m) "ai") eqn:Hai.
      * rewrite (_partialCmd_continues v st l m) by done. cbn. auto.
      * rewrite (_partialCmd_starts v st l m) by done. cbn. auto.
    + rewrite (_partialCmd_throws_late v st l m) by done. cbn.
      destruct (loose_eq_str (sender m) "ai"); cbn; auto.
Qed.

(** X3.  Over any run of events, from any state, the requests issued are,
    in order, one per [addmessage] event whose sender is the string
    'user', each addressed to the same session: the three server events
    never issue a request, and no handler writes [sessionid] or drops a
    request from the record. *)
Theorem X3_requests_follow_user_messages (st : State) (evs : list event) :
  sessionid (run evs st) = sessionid st ∧
  fetched (run evs st) = fetched st ++ (evs ≫= forwarded (sessionid st)).
Proof.
  revert st. induction evs as [|ev evs IH]; intros st.
  - cbn. by rewrite app_nil_r.
  - rewrite run_cons. destruct (IH (dispatch st ev)) as [-> ->].
    destruct (dispatch_footprint st ev) as (-> & -> & _).
    split; [done|]. cbn. by rewrite <- app_assoc.
Qed.

(** X4.  No delivery removes, reorders or replaces an element of
    [this.messages]: the array before a run is a prefix, object by object,
    of the array after it, and a run of [n] events makes it at most [n]
    longer. *)
Theorem X4_messages_only_grow (st : State) (evs : list event) :
  messages st `prefix_of` messages (run evs st) ∧
  length (messages (run evs st)) ≤ length (messages st) + length evs.
Proof.
  revert st. induction evs as [|ev evs IH]; intros st.
  - cbn. split; [done|lia].
  - rewrite run_cons. destruct (IH (dispatch st ev)) as [Hpre Hlen].
    destruct (dispatch_footprint st ev) as (_ & _ & [Hms|Hms]);
      rewrite Hms in Hpre, Hlen.
    + split; [done|]. cbn. lia.
    + split.
      * etrans; [|exact Hpre]. by apply prefix_app_r.
      * rewrite length_app in Hlen. cbn in *. lia.
Qed.

(** X5.  [_partialCmd] does not undo what it did before it throws.  Take
    a sequence whose last entry has a sender that the test [!= 'ai'] can
    compare, and a payload from which the text cannot be built: [null],
    or with a [command] or [so_far] that does not convert to a string.
    When the last entry is not an 'ai' entry, the handler throws a
    [TypeError] while it builds the text, after the empty 'ai' entry has
    been appended: the entry stays, with content ''.  When the last entry
    is an 'ai' entry, the same payload leaves the sequence as it was. *)
Theorem X5_partial_command_throws_after_appending
    (st : State) (pre : list Message) (m : Message) (v : value) :
  wf st →
  snapshot st = pre ++ [m] →
  convertible (sender m) = true →
  text_payload v = false →
  (handler (partial_command {| data := Parsed v |}) st).1 = Throw TypeError ∧
  snapshot (dispatch st (partial_command {| data := Parsed v |})) =
    (if loose_eq_str (sender m) "ai"
     then pre ++ [m]
     else pre ++ [m; {| content := VString ""; sender := VString "ai" |}]).
Proof.
  intros Hwf Hsnap Hconv Hv.
  destruct (snapshot_last_inv st pre m Hwf Hsnap) as (ms & l & Hms & Hm & _ & _).
  assert (last (messages st) = Some l) as Hl by (rewrite Hms; apply last_snoc).
  deliver. rewrite (_partialCmd_throws_late v st l m) by done. cbn [fst snd].
  split; [done|]. destruct (loose_eq_str (sender m) "ai"); [done|].
  rewrite snapshot_push, Hsnap by done. by rewrite <- app_assoc.
Qed.

Lemma X5_witness :
  wf (run [onUserSubmit "hi"] (constructor (VString "s1"))) ∧
  snapshot (dispatch (run [onUserSubmit "hi"] (constructor (VString "s1")))
              (partial_command {| data := Parsed VNull |})) =
    [{| content := VString "hi"; sender := VString "user" |};
     {| content := VString ""; sender := VString "ai" |}].
Proof.
  split; [apply wf_reachable|].
  apply (X5_partial_command_throws_after_appending
           (run [onUserSubmit "hi"] (constructor (VString "s1"))) []
           {| content := VString "hi"; sender := VString "user" |} VNull).
  - apply wf_reachable.
  - reflexivity.
  - reflexivity.
  - reflexivity.
Defined.

(** ** The plugin panel: what [handleSubmit] sends *)

Section PluginToggle_facts.
Import PluginToggle.

Lemma own_property_set_property (props : list (string * value))
    (k k' : string) (v : value) :
  own_property (set_property props k v) k' =
    if String.eqb k k' then v else own_property props k'.
Proof.
  induction props as [|[k0 v0] props IH]; cbn.
  - by destruct (String.eqb k k').
  - destruct (String.eqb_spec k0 k) as [->|Hne]; cbn.
    + by destruct (String.eqb_spec k k').
    + rewrite IH. destruct (String.eqb_spec k0 k') as [->|Hne']; [|done].
      destruct (String.eqb_spec k k') as [->|_]; [done|done].
Qed.

(** The callback of [reduce] reads and never writes the component:
    [reduce] returns the object built from the pairs of its elements, or
    throws at the first element that cannot be read. *)
Lemma reduce_outcome (elems : list element) (acc : accumulator) (st : State) :
  match mapM (entry (store st)) elems with
  | Some entries =>
      reduce elems acc st =
        (Return (foldl (fun a e => assign a e.1 e.2) acc entries), st)
  | None => reduce elems acc st = (Throw TypeError, st)
  end.
Proof.
  revert acc. induction elems as [|x elems IH]; intros acc; [done|].
  cbn [reduce]. unfold mbind, PluginToggle.P_bind, pbind.
  destruct x as [l|v]; cbn.
  - destruct (store st !! l) as [props|] eqn:Hl; cbn; [|done].
    unfold to_key.
    destruct (convertible (own_property props "name")); cbn; [|done].
    rewrite Hl.
    specialize (IH (assign acc (ToString (own_property props "name"))
                      (own_property props "enabled"))).
    by destruct (mapM (entry (store st)) elems).
  - destruct (coercible v) eqn:Hv; cbn; [|done].
    unfold to_key.
    destruct (convertible (property v "name")); cbn; [|done].
    rewrite ?Hv.
    specialize (IH (assign acc (ToString (property v "name")) (property v "enabled"))).
    by destruct (mapM (entry (store st)) elems).
Qed.

Lemma sent_for_snoc (k : string) (entries : list (string * value))
    (e : string * value) :
  sent_for k (entries ++ [e]) =
    if decide (e.1 = k) then Some e.2 else sent_for k entries.
Proof.
  unfold sent_for. rewrite filter_app.
  destruct (decide (e.1 = k)) as [He|He].
  - rewrite (filter_cons_True _ e []), filter_nil by done. by rewrite last_snoc.
  - rewrite (filter_cons_False _ e []), filter_nil by done. by rewrite app_nil_r.
Qed.

Lemma assign_other_key (acc : accumulator) (k k' : string) (v : value) :
  k' ≠ "__proto__" →
  own (assign acc k v) !! k' = if decide (k = k') then Some v else own acc !! k'.
Proof.
  intros Hk'. unfold assign.
  destruct (String.eqb_spec k "__proto__") as [->|Hk]; cbn.
  - rewrite decide_False by done.
    destruct (shadowed acc); cbn.
    + by rewrite lookup_insert_ne.
    + by destruct v.
  - destruct (decide (k = k')) as [->|Hne].
    + by rewrite lookup_insert_eq.
    + by rewrite lookup_insert_ne.
Qed.

(** What the object built by [reduce] holds for a key other than
    [__proto__]: the value of the last pair with that key. *)
Lemma reduced_lookup (entries : list (string * value)) (acc : accumulator)
    (k : string) :
  k ≠ "__proto__" →
  own (foldl (fun a e => assign a e.1 e.2) acc entries) !! k =
    match sent_for k entries with
    | Some v => Some v
    | None => own acc !! k
    end.
Proof.
  intros Hk. induction entries as [|e entries IH] using rev_ind; [done|].
  rewrite foldl_snoc, sent_for_snoc, assign_other_key by done.
  destruct (decide (e.1 = k)); [done|exact IH].
Qed.

Lemma handleSubmit_returns
    (st : State) (elems : list element) (entries : list (string * value)) :
  plugins st = Array elems →
  mapM (entry (store st)) elems = Some entries →
  handleSubmit st =
    (Return tt,
     {| store := store st; plugins := plugins st;
        fetched :=
          fetched st ++
            [update_request
               (own (foldl (fun a e => assign a e.1 e.2) empty_object entries))];
        alerts := alerts st |}).
Proof.
  intros Hps Hentries.
  unfold handleSubmit, mbind, PluginToggle.P_bind, pbind, get_plugins.
  rewrite Hps. pose proof (reduce_outcome elems empty_object st) as Hred.
  rewrite Hentries in Hred. rewrite Hred. unfold fetch. by rewrite Hps.
Qed.

(** A plugin whose [name] is [{ toString: 1 }]: the key of
    [acc[plugin.name]] cannot be built, [handleSubmit] throws and issues
    no request. *)
Example name_that_does_not_convert :
  handleSubmit
    {| store := [[("name", VObject [("toString", VNumber "1")]);
                  ("enabled", VBool true)]];
       plugins := Array [Obj 0]; fetched := []; alerts := [] |} =
  (Throw TypeError,
   {| store := [[("name", VObject [("toString", VNumber "1")]);
                 ("enabled", VBool true)]];
      plugins := Array [Obj 0]; fetched := []; alerts := [] |}).
Proof. reflexivity. Qed.

(** X6.  When [handleSubmit] can read every element of [this.plugins]
    (none is [null] or [undefined], and every [name] converts to a key),
    it returns and issues exactly one request, a POST to /update-plugins,
    and changes nothing else.  For every key other than [__proto__], the
    object it hands to [JSON.stringify] holds the [enabled] of the last
    plugin whose [name] converts to that key, and holds nothing when
    there is no such plugin. *)
Theorem X6_handleSubmit_sends_last_enabled
    (st : State) (elems : list element) (entries : list (string * value)) :
  plugins st = Array elems →
  mapM (entry (store st)) elems = Some entries →
  ∃ acc,
    handleSubmit st =
      (Return tt,
       {| store := store st; plugins := plugins st;
          fetched := fetched st ++ [update_request acc];
          alerts := alerts st |}) ∧
    ∀ k, k ≠ "__proto__" → acc !! k = sent_for k entries.
Proof.
  intros Hps Hentries.
  exists (own (foldl (fun a e => assign a e.1 e.2) empty_object entries)).
  split.
  - by apply (handleSubmit_returns st elems entries).
  - intros k Hk. rewrite reduced_lookup by done.
    by destruct (sent_for k entries).
Qed.

Lemma X6_witness :
  ∃ acc,
    handleSubmit
      {| store := [[("name", VString "a"); ("enabled", VBool true)];
                   [("name", VString "a"); ("enabled", VBool false)]];
         plugins := Array [Obj 0; Obj 1]; fetched := []; alerts := [] |} =
      (Return tt,
       {| store := [[("name", VString "a"); ("enabled", VBool true)];
                    [("name", VString "a"); ("enabled", VBool false)]];
          plugins := Array [Obj 0; Obj 1];
          fetched := [] ++ [update_request acc];
          alerts := [] |}) ∧
    ∀ k, k ≠ "__proto__" →
         acc !! k = sent_for k [("a", VBool true); ("a", VBool false)].
Proof.
  apply (X6_handleSubmit_sends_last_enabled
           {| store := [[("name", VString "a"); ("enabled", VBool true)];
                        [("name", VString "a"); ("enabled", VBool false)]];
              plugins := Array [Obj 0; Obj 1]; fetched := []; alerts := [] |}
           [Obj 0; Obj 1]).
  - reflexivity.
  - reflexivity.
Defined.

(** X7.  [handleSubmit] throws a [TypeError], issues no request and leaves
    the component as it was, when [this.plugins] is not an array, and
    when one of its elements is [null] or [undefined]. *)
Theorem X7_handleSubmit_throws_on_unreadable_plugins (st : State) :
  match plugins st with
  | NotArray _ => True
  | Array elems => ∃ v, Other v ∈ elems ∧ coercible v = false
  end →
  handleSubmit st = (Throw TypeError, st).
Proof.
  intros Hps.
  unfold handleSubmit, mbind, PluginToggle.P_bind, pbind, get_plugins.
  destruct (plugins st) as [elems|v]; [|done].
  destruct Hps as (v & Hin & Hv).
  pose proof (reduce_outcome elems empty_object st) as Hred.
  destruct (mapM (entry (store st)) elems) as [entries|] eqn:Hentries.
  - assert (Forall (is_Some ∘ entry (store st)) elems) as Hall
      by (apply mapM_is_Some_1; by eexists).
    rewrite Forall_forall in Hall. destruct (Hall _ Hin) as [e He].
    cbn in He. by rewrite Hv in He.
  - by rewrite Hred.
Qed.

Lemma X7_witness :
  handleSubmit
    {| store := [[("name", VString "a"); ("enabled", VBool true)]];
       plugins := Array [Obj 0; Other VNull]; fetched := []; alerts := [] |} =
  (Throw TypeError,
   {| store := [[("name", VString "a"); ("enabled", VBool true)]];
      plugins := Array [Obj 0; Other VNull]; fetched := []; alerts := [] |}).
Proof.
  apply X7_handleSubmit_throws_on_unreadable_plugins.
  exists VNull. split; [|reflexivity].
  apply list_elem_of_In. right. left. reflexivity.
Defined.


(** ** The plugin panel: toggling, reloading, alerts *)

Lemma entry_after_toggle (st : list (list (string * value)))
    (checked : bool) (l : nat) (x : element) :
  entry (alter (fun props => set_property props "enabled" (VBool checked)) l st) x =
    toggled checked l x <$> entry st x.
Proof.
  destruct x as [l'|v]; cbn.
  - rewrite list_lookup_alter. destruct (decide (l = l')) as [->|Hne].
    + destruct (st !! l') as [props|]; cbn; [|done].
      rewrite !own_property_set_property. cbn.
      destruct (convertible (own_property props "name")); cbn; [|done].
      by rewrite decide_True.
    + destruct (st !! l') as [props|]; cbn; [|done].
      destruct (convertible (own_property props "name")); cbn; [|done].
      by rewrite decide_False.
  - by destruct (coercible v && convertible (property v "name")).
Qed.

Lemma entries_after_toggle (st : list (list (string * value)))
    (checked : bool) (l : nat) (elems : list element)
    (entries : list (string * value)) :
  mapM (entry st) elems = Some entries →
  mapM (entry (alter (fun props => set_property props "enabled" (VBool checked)) l st))
    elems = Some (zip_with (toggled checked l) elems entries).
Proof.
  intros Hentries%mapM_Some_1. apply mapM_Some_2.
  induction Hentries as [|x e elems entries He _ IH]; cbn; [constructor|].
  constructor; [|done]. by rewrite entry_after_toggle, He.
Qed.

Lemma toggled_key (checked : bool) (l : nat) (x : element) (e : string * value) :
  (toggled checked l x e).1 = e.1.
Proof. destruct x as [l'|v]; cbn; [|done]. by destruct (decide (l' = l)). Qed.

Lemma sent_for_last_occurrence (k : string) (v : value)
    (before after : list (string * value)) :
  k ∉ after.*1 →
  sent_for k (before ++ (k, v) :: after) = Some v.
Proof.
  intros Hafter. unfold sent_for.
  rewrite filter_app, filter_cons_True by done.
  replace (filter (fun e => e.1 = k) after) with (@nil (string * value)).
  { by rewrite last_snoc. }
  symmetry. induction after as [|e after IH]; [done|].
  rewrite filter_cons_False.
  - apply IH. intros Hin. apply Hafter. by right.
  - intros He. apply Hafter. rewrite fmap_cons, He. by left.
Qed.

Lemma toggled_keys (checked : bool) (l : nat) (k : string)
    (elems : list element) (entries : list (string * value)) :
  k ∉ entries.*1 → k ∉ (zip_with (toggled checked l) elems entries).*1.
Proof.
  revert entries. induction elems as [|x elems IH]; intros [|e entries] Hk;
    cbn; try (intros Hin; by apply elem_of_nil in Hin).
  rewrite toggled_key. intros [->|Hin]%elem_of_cons.
  - apply Hk. by left.
  - revert Hin. apply IH. intros Hin. apply Hk. by right.
Qed.

(** X8.  A toggle reaches the next submit.  Take a list [this.plugins]
    whose every element [handleSubmit] can read (none is [null] or
    [undefined], every name converts to a key), and in it a plugin object
    whose name no plugin after it in the array has, and is not
    [__proto__].  After [handleToggle] has run for that object with
    [checked], [handleSubmit] returns and the object it hands to
    [JSON.stringify] holds [checked] for that name. *)
Theorem X8_toggle_reaches_the_next_submit
    (st : State) (pre post : list element) (l : nat)
    (props : list (string * value)) (epost : list (string * value))
    (checked : bool) :
  plugins st = Array (pre ++ Obj l :: post) →
  is_Some (mapM (entry (store st)) pre) →
  store st !! l = Some props →
  convertible (own_property props "name") = true →
  mapM (entry (store st)) post = Some epost →
  ToString (own_property props "name") ≠ "__proto__" →
  ToString (own_property props "name") ∉ epost.*1 →
  ∃ acc,
    handleSubmit (dispatch st (change checked l)) =
      (Return tt,
       {| store := store (dispatch st (change checked l));
          plugins := plugins st;
          fetched := fetched st ++ [update_request acc];
          alerts := alerts st |}) ∧
    acc !! ToString (own_property props "name") = Some (VBool checked).
Proof.
  intros Hps [epre Hpre] Hl Hconv Hpost Hproto Hlast.
  set (k := ToString (own_property props "name")) in *.
  assert (mapM (entry (store st)) (pre ++ Obj l :: post) =
          Some (epre ++ (k, own_property props "enabled") :: epost)) as Hentries.
  { apply mapM_Some_2, Forall2_app; [by apply mapM_Some_1|].
    constructor; [|by apply mapM_Some_1].
    unfold entry. rewrite Hl. cbn [mbind option_bind]. by rewrite Hconv. }
  pose proof (entries_after_toggle _ checked l _ _ Hentries) as Hafter.
  rewrite zip_with_app in Hafter
    by (apply mapM_Some_1, Forall2_length in Hpre; done).
  cbn [zip_with toggled fst] in Hafter. rewrite decide_True in Hafter by done.
  eexists. split.
  - rewrite (handleSubmit_returns (dispatch st (change checked l)) _ _ Hps Hafter).
    done.
  - rewrite reduced_lookup by done.
    rewrite sent_for_last_occurrence; [done|]. by apply toggled_keys.
Qed.

Lemma X8_witness :
  ∃ acc,
    handleSubmit
      (dispatch
         {| store := [[("name", VString "a"); ("enabled", VBool true)];
                      [("name", VString "b"); ("enabled", VBool true)]];
            plugins := Array ([] ++ Obj 0 :: [Obj 1]);
            fetched := []; alerts := [] |}
         (change false 0)) =
      (Return tt,
       {| store :=
            store (dispatch
                     {| store := [[("name", VString "a"); ("enabled", VBool true)];
                                  [("name", VString "b"); ("enabled", VBool true)]];
                        plugins := Array ([] ++ Obj 0 :: [Obj 1]);
                        fetched := []; alerts := [] |}
                     (change false 0));
          plugins := Array ([] ++ Obj 0 :: [Obj 1]);
          fetched := [] ++ [update_request acc];
          alerts := [] |}) ∧
    acc !! ToString (own_property [("name", VString "a"); ("enabled", VBool true)]
                       "name") = Some (VBool false).
Proof.
  apply (X8_toggle_reaches_the_next_submit
           {| store := [[("name", VString "a"); ("enabled", VBool true)];
                        [("name", VString "b"); ("enabled", VBool true)]];
              plugins := Array ([] ++ Obj 0 :: [Obj 1]);
              fetched := []; alerts := [] |}
           [] [Obj 1] 0 [("name", VString "a"); ("enabled", VBool true)]
           [("b", VBool true)] false).
  - reflexivity.
  - by eexists.
  - reflexivity.
  - reflexivity.
  - reflexivity.
  - discriminate.
  - intros [Hin|Hin]%elem_of_cons; [discriminate|by apply elem_of_nil in Hin].
Defined.

Lemma entry_store_app (st more : list (list (string * value))) (x : element) :
  in_store st x → entry (st ++ more) x = entry st x.
Proof.
  destruct x as [l|v]; cbn; [|done]. intros Hl. by rewrite lookup_app_l.
Qed.

Lemma parsed_elements_snoc (vs : list value) (v : value)
    (st0 : list (list (string * value))) :
  parsed_elements (vs ++ [v]) st0 =
    match v with
    | VObject props =>
        ((parsed_elements vs st0).1 ++ [Obj (length (parsed_elements vs st0).2)],
         (parsed_elements vs st0).2 ++ [props])
    | _ => ((parsed_elements vs st0).1 ++ [Other v], (parsed_elements vs st0).2)
    end.
Proof.
  unfold parsed_elements. rewrite foldl_snoc.
  destruct (foldl _ _ vs) as [elems st]. by destruct v.
Qed.

(** Reading the elements of a parsed array gives the pairs of the values
    it was parsed from. *)
Lemma parsed_elements_entries (vs : list value)
    (st0 : list (list (string * value))) (entries : list (string * value)) :
  Forall2 (fun v e => value_entry v = Some e) vs entries →
  Forall2 (fun x e => entry (parsed_elements vs st0).2 x = Some e)
    (parsed_elements vs st0).1 entries ∧
  Forall (in_store (parsed_elements vs st0).2) (parsed_elements vs st0).1.
Proof.
  revert entries. induction vs as [|v vs IH] using rev_ind; intros entries Hvs.
  { apply Forall2_nil_inv_l in Hvs as ->. split; constructor. }
  apply Forall2_app_inv_l in Hvs as (es & es1 & Hes & Hv & ->).
  apply Forall2_cons_inv_l in Hv as (e & es2 & He & ->%Forall2_nil_inv_l & ->).
  destruct (IH es Hes) as [Hread Hin]. rewrite parsed_elements_snoc.
  destruct (parsed_elements vs st0) as [elems st]. cbn [fst snd] in *.
  assert (∀ more, Forall2 (fun x e => entry (st ++ more) x = Some e) elems es)
    as Hread'.
  { intros more. clear -Hread Hin.
    induction Hread as [|x e' elems es Hx _ IHr]; [constructor|].
    apply Forall_cons in Hin as [Hx' Hin].
    constructor; [by rewrite entry_store_app|by apply IHr]. }
  assert (∀ more, Forall (in_store (st ++ more)) elems) as Hin'.
  { intros more. eapply Forall_impl; [exact Hin|].
    intros [l|w]; cbn; [|done]. rewrite length_app. lia. }
  destruct v; cbn [fst snd];
    try (split; [apply Forall2_app; [by rewrite <- (app_nil_r st)|]
                |apply Forall_app; split; [done|]];
         repeat constructor; exact He).
  split.
  - apply Forall2_app; [done|]. repeat constructor. cbn.
    rewrite list_lookup_middle by done. exact He.
  - apply Forall_app. split; [done|]. repeat constructor. cbn.
    rewrite length_app. cbn. lia.
Qed.

Lemma reload_state (st : State) (ok : bool) (vs : list value) :
  dispatch st (plugins_settled (Response ok (Some (VArray vs)))) =
    {| store := (parsed_elements vs (store st)).2;
       plugins := Array (parsed_elements vs (store st)).1;
       fetched := fetched st; alerts := alerts st |}.
Proof.
  unfold dispatch. cbn. by destruct (parsed_elements vs (store st)).
Qed.

(** X9.  A reload replaces the list, whatever the component held and
    whatever the status of the reply.  When the reply to [fetchPlugins]
    carries a JSON array whose every element can be read (none is [null],
    every [name] converts to a key), the next [handleSubmit] returns, and
    for every key other than [__proto__] the object it hands to
    [JSON.stringify] holds what the reply itself gives for that key: the
    [enabled] of the last element of that name.  Toggles made before the
    reply arrived are not sent. *)
Theorem X9_reload_then_submit_sends_the_reply
    (st : State) (ok : bool) (vs : list value) (entries : list (string * value)) :
  mapM value_entry vs = Some entries →
  ∃ acc,
    handleSubmit (dispatch st (plugins_settled (Response ok (Some (VArray vs))))) =
      (Return tt,
       {| store :=
            store (dispatch st (plugins_settled (Response ok (Some (VArray vs)))));
          plugins :=
            plugins (dispatch st (plugins_settled (Response ok (Some (VArray vs)))));
          fetched := fetched st ++ [update_request acc];
          alerts := alerts st |}) ∧
    ∀ k, k ≠ "__proto__" → acc !! k = sent_for k entries.
Proof.
  intros Hvs%mapM_Some_1.
  destruct (parsed_elements_entries vs (store st) entries Hvs) as [Hread _].
  apply mapM_Some_2 in Hread.
  exists (own (foldl (fun a e => assign a e.1 e.2) empty_object entries)).
  split.
  - rewrite reload_state.
    by rewrite (handleSubmit_returns _ (parsed_elements vs (store st)).1 entries).
  - intros k Hk. rewrite reduced_lookup by done.
    by destruct (sent_for k entries).
Qed.

(** The toggle of [toggled_example] is a real one, and the reload that
    follows discards it. *)
Lemma X9_witness :
  store toggled_example !! 0 = Some [("name", VString "a"); ("enabled", VBool true)] ∧
  ∃ acc,
    handleSubmit
      (dispatch toggled_example
         (plugins_settled (Response false (Some (VArray reply_example))))) =
      (Return tt,
       {| store :=
            store (dispatch toggled_example
                     (plugins_settled (Response false (Some (VArray reply_example)))));
          plugins :=
            plugins (dispatch toggled_example
                       (plugins_settled
                          (Response false (Some (VArray reply_example)))));
          fetched := fetched toggled_example ++ [update_request acc];
          alerts := alerts toggled_example |}) ∧
    ∀ k, k ≠ "__proto__" → acc !! k = sent_for k [("a", VBool false)].
Proof.
  split; [reflexivity|].
  apply (X9_reload_then_submit_sends_the_reply toggled_example false reply_example).
  reflexivity.
Defined.

Lemma handleSubmit_alerts (st : State) :
  alerts (handleSubmit st).2 = alerts st.
Proof.
  unfold handleSubmit, mbind, PluginToggle.P_bind, pbind, get_plugins.
  destruct (plugins st) as [elems|v]; [|done].
  pose proof (reduce_outcome elems empty_object st) as Hred.
  destruct (mapM (entry (store st)) elems); by rewrite Hred.
Qed.

Lemma dispatch_alerts (st : State) (ev : event) :
  alerts (dispatch st ev) = alerts st ++ shown ev.
Proof.
  unfold dispatch. destruct ev as [checked l| | |r|r]; cbn [handler shown].
  - cbn. by rewrite app_nil_r.
  - by rewrite handleSubmit_alerts, app_nil_r.
  - cbn. by rewrite app_nil_r.
  - rewrite app_nil_r. destruct r as [|ok [v|]]; cbn; [done| |done].
    by destruct (parsed v (store st)).
  - destruct r as [|[|] j]; cbn; [by rewrite app_nil_r|done|done].
Qed.

(** X10.  Over any run of events the alerts shown are, in order, one per
    reply to an update request: the success text when the reply is [ok],
    the failure text when it is not.  An update request that fails on the
    network shows no alert, and neither does any other event: a toggle, a
    click, a reload or its reply, or a [handleSubmit] that throws. *)
Theorem X10_alerts_follow_update_replies (st : State) (evs : list event) :
  alerts (run evs st) = alerts st ++ (evs ≫= shown).
Proof.
  revert st. induction evs as [|ev evs IH]; intros st.
  - cbn. by rewrite app_nil_r.
  - change (run (ev :: evs) st) with (run evs (dispatch st ev)).
    rewrite IH, dispatch_alerts. cbn. by rewrite <- app_assoc.
Qed.

(** While no pair with the key [__proto__] has been met, the setter is
    reached and the object has no own property of that name; the first
    such pair adds none. *)
Lemma reduced_proto (entries : list (string * value)) :
  (filter (fun e => e.1 = "__proto__") entries = [] →
   shadowed (foldl (fun a e => assign a e.1 e.2) empty_object entries) = false) ∧
  (length (filter (fun e => e.1 = "__proto__") entries) ≤ 1 →
   own (foldl (fun a e => assign a e.1 e.2) empty_object entries)
     !! "__proto__" = None).
Proof.
  induction entries as [|e entries [IH0 IH1]] using rev_ind; [done|].
  rewrite foldl_snoc, filter_app.
  set (acc := foldl (fun a e => assign a e.1 e.2) empty_object entries) in *.
  destruct (decide (e.1 = "__proto__")) as [He|He].
  - rewrite (filter_cons_True _ e []), filter_nil by done. split.
    { intros Hnil. by apply app_nil in Hnil as [_ ?]. }
    rewrite length_app. cbn. intros Hlen.
    assert (filter (fun e => e.1 = "__proto__") entries = []) as Hnil
      by (apply length_zero_iff_nil; lia).
    assert (own acc !! "__proto__" = None) as Hown
      by (apply IH1; rewrite Hnil; cbn; lia).
    unfold assign. rewrite He, (IH0 Hnil). cbn. by destruct e.2.
  - rewrite (filter_cons_False _ e []), filter_nil, app_nil_r by done.
    unfold assign. apply String.eqb_neq in He as He'. rewrite He'. cbn.
    split; [done|]. intros Hlen. rewrite lookup_insert_ne by done. by apply IH1.
Qed.

(** X11.  A plugin named [__proto__] is not sent.  When [handleSubmit]
    can read every element of [this.plugins] (none is [null] or
    [undefined], every [name] converts to a key) and at most one of them
    has a name that converts to [__proto__], the object it hands to
    [JSON.stringify] has no property of that name, whatever the [enabled]
    of that element: the assignment reaches the prototype setter and adds
    nothing. *)
Theorem X11_plugin_named_proto_is_not_sent
    (st : State) (elems : list element) (entries : list (string * value)) :
  plugins st = Array elems →
  mapM (entry (store st)) elems = Some entries →
  length (filter (fun e => e.1 = "__proto__") entries) ≤ 1 →
  ∃ acc,
    handleSubmit st =
      (Return tt,
       {| store := store st; plugins := plugins st;
          fetched := fetched st ++ [update_request acc];
          alerts := alerts st |}) ∧
    acc !! "__proto__" = None.
Proof.
  intros Hps Hentries Hone. eexists. split.
  - by apply (handleSubmit_returns st elems entries).
  - by apply reduced_proto.
Qed.

Lemma X11_witness :
  ∃ acc,
    handleSubmit
      {| store := [[("name", VString "__proto__"); ("enabled", VBool true)]];
         plugins := Array [Obj 0]; fetched := []; alerts := [] |} =
      (Return tt,
       {| store := [[("name", VString "__proto__"); ("enabled", VBool true)]];
          plugins := Array [Obj 0];
          fetched := [] ++ [update_request acc];
          alerts := [] |}) ∧
    acc !! "__proto__" = None.
Proof.
  apply (X11_plugin_named_proto_is_not_sent
           {| store := [[("name", VString "__proto__"); ("enabled", VBool true)]];
              plugins := Array [Obj 0]; fetched := []; alerts := [] |}
           [Obj 0] [("__proto__", VBool true)]).
  - reflexivity.
  - reflexivity.
  - vm_compute. lia.
Defined.

(** X12.  [handleToggle] writes one property of one object.  After it
    has run for the object [l] with [checked], the store has the objects
    it had; every property of every object reads as before, except
    [enabled] of [l], which is [checked]; the array [this.plugins], the
    requests and the alerts are as they were. *)
Theorem X12_handleToggle_writes_one_property
    (st : State) (checked : bool) (l : nat) :
  (handleToggle checked l st).1 = Return tt ∧
  plugins (dispatch st (change checked l)) = plugins st ∧
  fetched (dispatch st (change checked l)) = fetched st ∧
  alerts (dispatch st (change checked l)) = alerts st ∧
  length (store (dispatch st (change checked l))) = length (store st) ∧
  ∀ l' props,
    store st !! l' = Some props →
    ∃ props',
      store (dispatch st (change checked l)) !! l' = Some props' ∧
      ∀ k, own_property props' k =
             if decide (l' = l ∧ k = "enabled") then VBool checked
             else own_property props k.
Proof.
  split_and!; try done.
  - cbn. by rewrite length_alter.
  - intros l' props Hl'. cbn. rewrite list_lookup_alter, Hl'.
    destruct (decide (l = l')) as [->|Hne]; rewrite ?Hl'; cbn.
    + eexists. split; [done|]. intros k. rewrite own_property_set_property.
      destruct (String.eqb_spec "enabled" k) as [<-|Hk].
      * by rewrite decide_True.
      * rewrite decide_False; [done|]. intros [_ ->]. done.
    + eexists. split; [done|]. intros k. rewrite decide_False; [done|].
      intros [-> _]. done.
Qed.

End PluginToggle_facts.
